(** * rust-solv: dependency satisfiability over an RPM repository

    Shallow embedding of the rust-solv crate:
    - [Core]: the version model, the capability index and the
      satisfiability solver ([solve::check_package_satisfiability_in_repo]);
    - [RepoMeta]: the serde deserialisation of [repo::Version] and
      [repo::Package] in src/repo.rs;
    - [Cli]: the command-line entry point [main] of src/main.rs;
    - [RepoIO]: [Repo::from_baseurl] and [Repo::from_file] of
      src/repo.rs, with their downloads, commands and panics. *)

From Stdlib Require Import String Ascii.
From stdpp Require Import base gmap strings list.

Module Core.

(** ** Version and capability model

    Modelled from the spec: the module [solve] (version ordering,
    capability index and solver) is not among the repository's
    sources; its behaviour follows sections 3 and 4 of the spec. *)

Record Version := mkVersion {
  epoch : N;
  ver : string;
  rel : string
}.

Inductive Comparator := EQ | LT | LE | GT | GE.

Record CapabilityRef := mkCap {
  cname : string;
  constraint : option (Comparator * Version)
}.

Record Package := mkPackage {
  name : string;
  kind : string;
  version : Version;
  provides : list CapabilityRef;
  requires : list CapabilityRef;
  conflicts : list CapabilityRef;
  obsoletes : list CapabilityRef
}.

Record Catalog := mkCatalog {
  repo_name : string;
  packages : list Package
}.

Inductive SolveError := PackageNotFound.

Inductive result (A E : Type) :=
| Ok : A -> result A E
| Err : E -> result A E.
Arguments Ok {A E} _.
Arguments Err {A E} _.

#[global] Instance Comparator_eq_dec : EqDecision Comparator.
Proof. solve_decision. Defined.
#[global] Instance Version_eq_dec : EqDecision Version.
Proof. solve_decision. Defined.
#[global] Instance CapabilityRef_eq_dec : EqDecision CapabilityRef.
Proof. solve_decision. Defined.

(** *** Segment-wise string comparison *)

(** A maximal run of digits or of non-digit characters. *)
Inductive run :=
| DigitRun : string -> run
| OtherRun : string -> run.

Definition is_digit (c : ascii) : bool :=
  let n := nat_of_ascii c in (48 <=? n) && (n <=? 57).

Definition is_alpha (c : ascii) : bool :=
  let n := nat_of_ascii c in
  ((65 <=? n) && (n <=? 90)) || ((97 <=? n) && (n <=? 122)).

(** Split a string into its alternating maximal runs. *)
Fixpoint runs (s : string) : list run :=
  match s with
  | EmptyString => []
  | String c s' =>
      match runs s' with
      | DigitRun d :: rs =>
          if is_digit c then DigitRun (String c d) :: rs
          else OtherRun (String c EmptyString) :: DigitRun d :: rs
      | OtherRun o :: rs =>
          if is_digit c then DigitRun (String c EmptyString) :: OtherRun o :: rs
          else OtherRun (String c o) :: rs
      | [] =>
          if is_digit c then [DigitRun (String c EmptyString)]
          else [OtherRun (String c EmptyString)]
      end
  end.

(** Value of a digit run as an arbitrary-precision integer (leading
    zeros ignored). *)
Fixpoint digits_value_acc (acc : N) (s : string) : N :=
  match s with
  | EmptyString => acc
  | String c s' => digits_value_acc (acc * 10 + (N_of_ascii c - 48))%N s'
  end.

Definition digits_value (s : string) : N := digits_value_acc 0 s.

Fixpoint all_alpha (s : string) : bool :=
  match s with
  | EmptyString => true
  | String c s' => is_alpha c && all_alpha s'
  end.

Definition all_alpha_run (r : run) : bool :=
  match r with
  | DigitRun _ => false
  | OtherRun s => all_alpha s
  end.

(** Two corresponding runs. Digit runs compare numerically, non-digit
    runs lexicographically by character; the spec leaves a digit run
    against a non-digit run open, and a digit run is taken as greater. *)
Definition run_cmp (x y : run) : comparison :=
  match x, y with
  | DigitRun a, DigitRun b => N.compare (digits_value a) (digits_value b)
  | OtherRun a, OtherRun b => String.compare a b
  | DigitRun _, OtherRun _ => Gt
  | OtherRun _, DigitRun _ => Lt
  end.

(** Positional comparison of run lists. When one side is exhausted,
    the exhausted side is smaller, except that a remaining all-alpha
    run makes the longer side smaller. *)
Fixpoint seg_cmp (xs ys : list run) : comparison :=
  match xs, ys with
  | [], [] => Eq
  | [], y :: _ => if all_alpha_run y then Gt else Lt
  | x :: _, [] => if all_alpha_run x then Lt else Gt
  | x :: xs', y :: ys' =>
      match run_cmp x y with
      | Eq => seg_cmp xs' ys'
      | c => c
      end
  end.

Definition segcmp_str (a b : string) : comparison := seg_cmp (runs a) (runs b).

(** The version ordering: epoch, then version, then release. *)
Definition version_cmp (a b : Version) : comparison :=
  match N.compare (epoch a) (epoch b) with
  | Eq =>
      match segcmp_str (ver a) (ver b) with
      | Eq => segcmp_str (rel a) (rel b)
      | c => c
      end
  | c => c
  end.

Definition version_lt (a b : Version) : Prop := version_cmp a b = Lt.

(** Predicates on strings used to describe the splitting into runs. *)
Fixpoint no_letters (s : string) : bool :=
  match s with
  | EmptyString => true
  | String c s' => negb (is_alpha c) && no_letters s'
  end.

Fixpoint all_digits (s : string) : bool :=
  match s with
  | EmptyString => true
  | String c s' => is_digit c && all_digits s'
  end.

Fixpoint no_digits (s : string) : bool :=
  match s with
  | EmptyString => true
  | String c s' => negb (is_digit c) && no_digits s'
  end.

Definition run_text (r : run) : string :=
  match r with DigitRun d => d | OtherRun o => o end.

(** A run is non-empty and made of digits only, or of non-digits only. *)
Definition run_ok (r : run) : bool :=
  match r with
  | DigitRun d => negb (bool_decide (d = EmptyString)) && all_digits d
  | OtherRun o => negb (bool_decide (o = EmptyString)) && no_digits o
  end.

Definition same_kind (x y : run) : bool :=
  match x, y with
  | DigitRun _, DigitRun _ | OtherRun _, OtherRun _ => true
  | _, _ => false
  end.

(** Consecutive runs alternate between the two kinds. *)
Fixpoint alternating (l : list run) : bool :=
  match l with
  | x :: (y :: _) as l' => negb (same_kind x y) && alternating l'
  | _ => true
  end.

Fixpoint runs_text (l : list run) : string :=
  match l with
  | [] => EmptyString
  | r :: l' => String.append (run_text r) (runs_text l')
  end.

(** ** Capability index *)

(** The self-provide capability: a package provides its own name at
    its own version with comparator [EQ]. *)
Definition self_provide (p : Package) : CapabilityRef :=
  mkCap (name p) (Some (EQ, version p)).

Definition effective_provides (p : Package) : list CapabilityRef :=
  provides p ++ [self_provide p].

Definition provided_version (c : CapabilityRef) : option Version :=
  snd <$> constraint c.

Abbreviation CapabilityIndex := (gmap string (list (Package * option Version))).

Definition lookup_providers (idx : CapabilityIndex) (n : string)
    : list (Package * option Version) :=
  default [] (idx !! n).

(** Append [(p, version)] to the bucket of the capability's name. *)
Definition index_add (p : Package) (idx : CapabilityIndex) (c : CapabilityRef)
    : CapabilityIndex :=
  <[cname c := lookup_providers idx (cname c) ++ [(p, provided_version c)]]> idx.

Definition index_package (idx : CapabilityIndex) (p : Package) : CapabilityIndex :=
  foldl (index_add p) idx (effective_provides p).

Definition build_index (cat : Catalog) : CapabilityIndex :=
  foldl index_package ∅ (packages cat).

(** The providers of a capability name listed in catalog order, read off
    the catalog directly (what a lookup in the index must return). *)
Definition package_providers (p : Package) (n : string) : list (Package * option Version) :=
  map (fun c => (p, provided_version c))
    (filter (fun c => cname c = n) (effective_provides p)).

Definition catalog_providers (ps : list Package) (n : string) : list (Package * option Version) :=
  concat (map (fun p => package_providers p n) ps).

(** ** Constraint satisfaction *)

Definition cmp_holds (cmp : Comparator) (c : comparison) : bool :=
  match cmp, c with
  | EQ, Eq => true
  | LT, Lt => true
  | LE, (Lt | Eq) => true
  | GT, Gt => true
  | GE, (Gt | Eq) => true
  | _, _ => false
  end.

(** A constrained requirement needs a provided version; an unversioned
    one is satisfied by any provider. *)
Definition satisfies (cons : option (Comparator * Version)) (pv : option Version) : bool :=
  match cons with
  | None => true
  | Some (cmp, v) =>
      match pv with
      | Some v' => cmp_holds cmp (version_cmp v' v)
      | None => false
      end
  end.

(** ** Deterministic choice of the greatest element *)

(** The greatest element of [best :: l] under [cmp], the earliest one
    on ties. *)
Fixpoint max_first {A} (cmp : A -> A -> comparison) (best : A) (l : list A) : A :=
  match l with
  | [] => best
  | x :: l' => max_first cmp (match cmp x best with Gt => x | _ => best end) l'
  end.

Definition greatest {A} (cmp : A -> A -> comparison) (l : list A) : option A :=
  match l with
  | [] => None
  | x :: l' => Some (max_first cmp x l')
  end.

Definition opt_version_cmp (a b : option Version) : comparison :=
  match a, b with
  | None, None => Eq
  | None, Some _ => Lt
  | Some _, None => Gt
  | Some x, Some y => version_cmp x y
  end.

(** ** Satisfiability solver *)

(** Step 1: the newest package with the requested name. *)
Definition select_root (cat : Catalog) (n : string) : option Package :=
  greatest (fun p q => version_cmp (version p) (version q))
    (filter (fun p => name p = n) (packages cat)).

(** The solver reads the index through a lookup function [lk]; the
    program passes [lookup_providers (build_index cat)]. *)
Abbreviation Lookup := (string -> list (Package * option Version)).

Definition satisfying_providers (lk : Lookup) (r : CapabilityRef)
    : list (Package * option Version) :=
  filter (fun e => satisfies (constraint r) (snd e) = true) (lk (cname r)).

Definition select_provider (lk : Lookup) (r : CapabilityRef) : option Package :=
  fst <$> greatest (fun a b => opt_version_cmp (snd a) (snd b)) (satisfying_providers lk r).

Definition same_identity (p q : Package) : bool :=
  bool_decide (name p = name q) && bool_decide (version p = version q).

Definition add_selected (p : Package) (sel : list Package) : list Package :=
  if existsb (same_identity p) sel then sel else sel ++ [p].

(** Step 2: the work queue over requirements. [None] means the fuel
    ran out; [Some None] that a requirement has no satisfying provider;
    [Some (Some sel)] the selected closure. *)
Fixpoint closure (lk : Lookup) (fuel : nat) (sel : list Package)
    (frontier visited : list CapabilityRef) : option (option (list Package)) :=
  match fuel with
  | O => None
  | S fuel' =>
      match frontier with
      | [] => Some (Some sel)
      | r :: rest =>
          if bool_decide (r ∈ visited) then closure lk fuel' sel rest visited
          else
            match select_provider lk r with
            | None => Some None
            | Some p => closure lk fuel' (add_selected p sel) (rest ++ requires p) (r :: visited)
            end
      end
  end.

(** Step 3: conflicts and obsoletes among the selected packages. *)
Definition provides_match (q : Package) (c : CapabilityRef) : bool :=
  existsb (fun e => bool_decide (cname e = cname c) && satisfies (constraint c) (provided_version e))
    (effective_provides q).

Definition clashes (field : Package -> list CapabilityRef) (sel : list Package) : bool :=
  existsb (fun p =>
    existsb (fun c =>
      existsb (fun q => negb (same_identity p q) && provides_match q c) sel)
    (field p)) sel.

Definition has_conflict (sel : list Package) : bool :=
  clashes conflicts sel || clashes obsoletes sel.

(** Every requirement the queue can hold comes from some [requires]
    list of the catalog; this bounds the number of iterations. *)
Definition all_requires (cat : Catalog) : list CapabilityRef :=
  concat (map requires (packages cat)).

Definition closure_fuel (cat : Catalog) : nat :=
  let L := length (all_requires cat) in S (L + L * L).

Definition check_opt_with (lk : Lookup) (cat : Catalog) (n : string)
    : option (result bool SolveError) :=
  match select_root cat n with
  | None => Some (Err PackageNotFound)
  | Some root =>
      match closure lk (closure_fuel cat) [root] (requires root) [] with
      | None => None
      | Some None => Some (Ok false)
      | Some (Some sel) => Some (Ok (negb (has_conflict sel)))
      end
  end.

Definition check_with (lk : Lookup) (cat : Catalog) (n : string) : result bool SolveError :=
  match check_opt_with lk cat n with
  | Some r => r
  | None => Ok false
  end.

Definition check_opt (cat : Catalog) (n : string) : option (result bool SolveError) :=
  check_opt_with (lookup_providers (build_index cat)) cat n.

(** [check_package_satisfiability_in_repo]. The fuel never runs out
    ([SolverFacts.closure_terminates]), so the fallback of [check_with]
    is never taken. *)
Definition check (cat : Catalog) (n : string) : result bool SolveError :=
  check_with (lookup_providers (build_index cat)) cat n.

(** Small catalogs used in the examples. *)
Definition v1 : Version := mkVersion 0 "1.0" "1".
Definition v2 : Version := mkVersion 0 "2.0" "1".
Definition pkg (n : string) (v : Version) (req conf : list CapabilityRef) : Package :=
  mkPackage n "rpm" v [] req conf [].
Definition unversioned (n : string) : CapabilityRef := mkCap n None.

Definition cycle_catalog : Catalog :=
  mkCatalog "demo" [pkg "A" v1 [unversioned "B"] []; pkg "B" v1 [unversioned "A"] []].
Definition conflict_catalog : Catalog :=
  mkCatalog "demo" [pkg "A" v1 [unversioned "B"] [unversioned "C"];
                    pkg "B" v1 [unversioned "C"] []; pkg "C" v1 [] []].


End Core.

(** ** Metadata deserialisation (src/repo.rs)

    [Repo::from_baseurl] downloads primary.xml and deserialises it
    with serde into [Repo { packages, name }]. A [<version>] element is
    presented to serde as its named fields (attributes); the derived
    [Deserialize] for [struct Version { epoch: String, ver: String,
    rel: String }] requires each field exactly once and copies it
    verbatim. The [format] block of a package is not modelled: its
    deserialisation does not touch the version fields. *)
Module RepoMeta.

Record Version := mkVersion {
  epoch : string;
  ver : string;
  rel : string
}.

Record Package := mkPackage {
  type : string;
  name : string;
  version : Version
}.

(** [Repo.name] is [repo_name] here: Rocq projections share one name
    space with [Package.name]. *)
Record Repo := mkRepo {
  packages : list Package;
  repo_name : string
}.

(** An XML element as serde sees it: its fields in document order. *)
Abbreviation Fields := (list (string * string)).

Record RawPackage := mkRawPackage {
  raw_fields : Fields;
  raw_version : Fields
}.

Inductive DeError :=
| MissingField : string -> DeError
| DuplicateField : string -> DeError.

Definition field_values (fs : Fields) (k : string) : list string :=
  map snd (filter (fun kv => kv.1 = k) fs).

(** A required [String] field: absent is [missing_field], repeated is
    [duplicate_field]. *)
Definition required_field (fs : Fields) (k : string) : Core.result string DeError :=
  match field_values fs k with
  | [] => Core.Err (MissingField k)
  | [v] => Core.Ok v
  | _ :: _ :: _ => Core.Err (DuplicateField k)
  end.

Definition de_version (fs : Fields) : Core.result Version DeError :=
  match required_field fs "epoch" with
  | Core.Err e => Core.Err e
  | Core.Ok e =>
      match required_field fs "ver" with
      | Core.Err e' => Core.Err e'
      | Core.Ok v =>
          match required_field fs "rel" with
          | Core.Err e' => Core.Err e'
          | Core.Ok r => Core.Ok (mkVersion e v r)
          end
      end
  end.

Definition de_package (raw : RawPackage) : Core.result Package DeError :=
  match required_field (raw_fields raw) "type" with
  | Core.Err e => Core.Err e
  | Core.Ok t =>
      match required_field (raw_fields raw) "name" with
      | Core.Err e => Core.Err e
      | Core.Ok n =>
          match de_version (raw_version raw) with
          | Core.Err e => Core.Err e
          | Core.Ok v => Core.Ok (mkPackage t n v)
          end
      end
  end.

Fixpoint de_packages (raws : list RawPackage) : Core.result (list Package) DeError :=
  match raws with
  | [] => Core.Ok []
  | raw :: raws' =>
      match de_package raw with
      | Core.Err e => Core.Err e
      | Core.Ok p =>
          match de_packages raws' with
          | Core.Err e => Core.Err e
          | Core.Ok ps => Core.Ok (p :: ps)
          end
      end
  end.

(** The last step of [Repo::from_baseurl]: [quick_xml::de::from_str]
    on primary.xml; [name] is [#[serde(skip)]] and defaults to "".
    [packages] is a [Vec] without [#[serde(default)]]: a document
    without any [<package>] element is a missing field. *)
Definition repo_of_primary (raws : list RawPackage) : Core.result Repo DeError :=
  match raws with
  | [] => Core.Err (MissingField "package")
  | _ :: _ =>
      match de_packages raws with
      | Core.Err e => Core.Err e
      | Core.Ok ps => Core.Ok (mkRepo ps "")
      end
  end.

End RepoMeta.

(** ** Command-line entry point (src/main.rs) *)
Module Cli.

Inductive event :=
| LoadConfig
| FetchRepo : string -> event
| Print : string -> event.

Inductive outcome (E : Type) :=
| Returned : Core.result unit E -> outcome E
| Panicked : string -> outcome E.
Arguments Returned {E} _.
Arguments Panicked {E} _.

Fixpoint enumerate_from {A} (i : nat) (l : list A) : list (nat * A) :=
  match l with
  | [] => []
  | x :: l' => (i, x) :: enumerate_from (S i) l'
  end.

(** [env::args().enumerate().filter(|&(i, _)| i > 0).map(|(_, v)| v)] *)
Definition requested_packages (args : list string) : list string :=
  map snd (filter (fun iv => 0 < iv.1) (enumerate_from 0 args)).

Definition report_line {SE} (package_name : string) (r : Core.result bool SE) : string :=
  match r with
  | Core.Ok true => String.append "Congratulations! Package "
      (String.append package_name "'s dependencies can be satisfied in the repo. :)")
  | Core.Ok false => String.append "Sorry, package "
      (String.append package_name "'s dependencies can not be satisfied in the repo. :(")
  | Core.Err _ => String.append "Error: something wrong happened while solving the dependency problem of package "
      (String.append package_name ".")
  end.

Section Main.
Variables (Config Repo AnyError SolveErr : Type).
(** [config::Config::from_file(..)] *)
Variable load_config : Core.result Config AnyError.
(** [cfg.get_repo_baseurl()] *)
Variable get_repo_baseurl : Config -> option string.
(** [repo::Repo::from_baseurl(..)] *)
Variable repo_from_baseurl : string -> Core.result Repo AnyError.
(** [solve::check_package_satisfiability_in_repo] *)
Variable solve : Repo -> string -> Core.result bool SolveErr.

(** [main]: the trace of effects it performs and how it ends. *)
Definition main (args : list string) : list event * outcome AnyError :=
  match requested_packages args with
  | [] => ([], Panicked "Package name not found!")
  | packages =>
      match load_config with
      | Core.Err e => ([LoadConfig], Returned (Core.Err e))
      | Core.Ok cfg =>
          match get_repo_baseurl cfg with
          | Some url =>
              match repo_from_baseurl url with
              | Core.Err e => ([LoadConfig; FetchRepo url], Returned (Core.Err e))
              | Core.Ok repo =>
                  ([LoadConfig; FetchRepo url] ++
                     map (fun n => Print (report_line n (solve repo n))) packages,
                   Returned (Core.Ok tt))
              end
          | None => ([LoadConfig], Panicked "Repo baseurl not found! Please check the config file!")
          end
      end
  end.

End Main.

End Cli.

(** ** Repository loading (src/repo.rs: [Repo::from_baseurl], [Repo::from_file])

    Network access, external commands and the parsers are parameters;
    a computation returns the effects it performed, in order, and how
    it ended: with a value, an error propagated by [?], or a panic. *)
Module RepoIO.
Import RepoMeta.

Inductive event :=
| HttpGet : string -> event
| RunCommand : string -> list string -> event.

Inductive panic_reason :=
| UnwrapNone
| UnwrapErr : string -> panic_reason
| IndexOutOfBounds : nat -> nat -> panic_reason.

Inductive outcome (E A : Type) :=
| Done : A -> outcome E A
| Fail : E -> outcome E A
| Panic : panic_reason -> outcome E A.
Arguments Done {E A} _.
Arguments Fail {E A} _.
Arguments Panic {E A} _.

Definition M (E A : Type) : Type := list event * outcome E A.

Definition ret {E A} (a : A) : M E A := ([], Done a).

Definition bind {E A B} (m : M E A) (k : A -> M E B) : M E B :=
  match m with
  | (t, Done a) => let '(t', o) := k a in (t ++ t', o)
  | (t, Fail e) => (t, Fail e)
  | (t, Panic p) => (t, Panic p)
  end.

Local Notation "x <- m ;; k" := (bind m (fun x => k))
  (at level 100, m at next level, right associativity).

(** The [?] operator on a [Result]. *)
Definition try {E A} (r : Core.result A E) : M E A :=
  ([], match r with Core.Ok a => Done a | Core.Err e => Fail e end).

(** An effect [ev] whose result is [r], propagated by [?]. *)
Definition effect {E A} (ev : event) (r : Core.result A E) : M E A :=
  ([ev], match r with Core.Ok a => Done a | Core.Err e => Fail e end).

Definition unwrap_option {E A} (o : option A) : M E A :=
  ([], match o with Some a => Done a | None => Panic UnwrapNone end).

(** *** [str] operations used by [from_file] *)

(** [s.contains(pat)] *)
Fixpoint str_contains (pat s : string) : bool :=
  String.prefix pat s ||
  match s with
  | EmptyString => false
  | String _ s' => str_contains pat s'
  end.

(** [s.replace(pat, rep)] for a non-empty [pat], as at every call site:
    the matches are found left to right without overlap; [skip] counts
    the characters of the current match still to drop. *)
Fixpoint replace_from (pat rep : string) (skip : nat) (s : string) : string :=
  match s with
  | EmptyString => EmptyString
  | String c s' =>
      match skip with
      | S k => replace_from pat rep k s'
      | O =>
          if String.prefix pat s
          then String.append rep (replace_from pat rep (String.length pat - 1) s')
          else String c (replace_from pat rep 0 s')
      end
  end.

Definition str_replace (s pat rep : string) : string := replace_from pat rep 0 s.

(** [s.split(sep).collect::<Vec<&str>>()] for a one-character [sep]. *)
Fixpoint str_split (sep : ascii) (s : string) : list string :=
  match s with
  | EmptyString => [EmptyString]
  | String c s' =>
      let parts := str_split sep s' in
      if Ascii.eqb c sep then EmptyString :: parts
      else match parts with
           | p :: ps => String c p :: ps
           | [] => [String c EmptyString]
           end
  end.

(** ASCII whitespace ([char::is_whitespace] below U+0080). *)
Definition is_ws (c : ascii) : bool :=
  let n := nat_of_ascii c in (Nat.leb 9 n && Nat.leb n 13) || Nat.eqb n 32.

Fixpoint trim_start (s : string) : string :=
  match s with
  | EmptyString => EmptyString
  | String c s' => if is_ws c then trim_start s' else s
  end.

Fixpoint trim_end (s : string) : string :=
  match s with
  | EmptyString => EmptyString
  | String c s' =>
      let t := trim_end s' in
      match t with
      | EmptyString => if is_ws c then EmptyString else String c EmptyString
      | _ => String c t
      end
  end.

(** [key.trim()] *)
Definition trim (s : string) : string := trim_end (trim_start s).

(** Number of occurrences of a character. *)
Fixpoint count_char (c : ascii) (s : string) : nat :=
  match s with
  | EmptyString => 0
  | String c' s' => (if Ascii.eqb c' c then 1 else 0) + count_char c s'
  end.

(** *** repomd.xml *)

Record Data := mkData {
  data_type : string;     (* [r#type] *)
  location_href : string  (* [location.href] *)
}.

Record Repomd := mkRepomd {
  datas : list Data
}.

(** The loop of [from_baseurl] that builds [primary_gz_url]: the href of
    the first data entry of type "primary" is appended, then [break]. *)
Fixpoint primary_location (primary_gz_url : string) (ds : list Data) : string :=
  match ds with
  | [] => primary_gz_url
  | d :: ds' =>
      if decide (data_type d = "primary")
      then String.append primary_gz_url (location_href d)
      else primary_location primary_gz_url ds'
  end.

(** A configuration section: its keys and values in the map's
    iteration order ([None] for a key written without a value). *)
Abbreviation IniSection := (list (string * option string)).

(** The value [from_file] keeps for [key] in a section: that of the
    last entry whose trimmed key is [key], [dflt] if there is none. *)
Fixpoint last_value (key : string) (kvs : IniSection) (dflt : string) : string :=
  match kvs with
  | [] => dflt
  | (k, v) :: rest =>
      last_value key rest (if decide (trim k = key) then default dflt v else dflt)
  end.

Section Load.
Context {E : Type}.
(** [reqwest::blocking::get(url)?.text()?] *)
Variable http_get_text : string -> Core.result string E.
Variable Bytes : Type.
(** [reqwest::blocking::get(url)?.bytes()?]; collecting the bytes of an
    in-memory slice cannot fail, so the [unwrap] that follows never
    panics. *)
Variable http_get_bytes : string -> Core.result Bytes E.
(** [GzDecoder::new(..).read_to_string(..)?] *)
Variable gunzip : Bytes -> Core.result string E.
(** [quick_xml::de::from_str::<Repomd>] *)
Variable parse_repomd : string -> Core.result Repomd E.
(** The XML layer of [quick_xml::de::from_str::<Repo>] on primary.xml:
    the package elements; their serde deserialisation is
    [repo_of_primary], whose errors become [E] through [de_error]. *)
Variable parse_primary : string -> Core.result (list RawPackage) E.
Variable de_error : DeError -> E.
(** [Ini::new_cs().load(path)]: the sections in the map's iteration
    order, or the parser's error message. *)
Variable load_ini : string -> Core.result (list (string * IniSection)) string.
(** [String::from_utf8(Command::new("arch").output()?.stdout)] *)
Variable arch_output : Core.result string E.
(** [String::from_utf8(Command::new("rpm").args(["-q",
    "openEuler-release"]).output()?.stdout)] *)
Variable rpm_release_output : Core.result string E.

Definition repomd_url (repo_url : string) : string :=
  String.append repo_url "repodata/repomd.xml".

Definition from_baseurl (repo_url : string) : M E Repo :=
  repomd_xml <- effect (HttpGet (repomd_url repo_url)) (http_get_text (repomd_url repo_url)) ;;
  repomd <- try (parse_repomd repomd_xml) ;;
  let primary_gz_url := primary_location repo_url (datas repomd) in
  primary_gz_bytes <- effect (HttpGet primary_gz_url) (http_get_bytes primary_gz_url) ;;
  primary_xml <- try (gunzip primary_gz_bytes) ;;
  raws <- try (parse_primary primary_xml) ;;
  try (match repo_of_primary raws with
       | Core.Ok r => Core.Ok r
       | Core.Err e => Core.Err (de_error e)
       end).

(** The inner loop of [from_file] over the keys of one section; the
    ["mirrorlist"] arm does nothing, like the default arm. *)
Fixpoint scan_section (kvs : IniSection) (repo_name repo_baseurl : string) : M E (string * string) :=
  match kvs with
  | [] => ret (repo_name, repo_baseurl)
  | (key, value) :: rest =>
      if decide (trim key = "name") then
        v <- unwrap_option value ;; scan_section rest v repo_baseurl
      else if decide (trim key = "baseurl") then
        v <- unwrap_option value ;; scan_section rest repo_name v
      else scan_section rest repo_name repo_baseurl
  end.

(** The replacement of the yum variables in [from_file]. *)
Definition substitute_vars (repo_baseurl : string) : M E string :=
  url1 <- (if str_contains "$basearch" repo_baseurl then
             out <- effect (RunCommand "arch" []) arch_output ;;
             let basearch := if decide (out = "i686") then "i386" else out in
             ret (str_replace repo_baseurl "$basearch" basearch)
           else ret repo_baseurl) ;;
  url2 <- (if str_contains "$arch" url1 then
             arch <- effect (RunCommand "arch" []) arch_output ;;
             ret (str_replace url1 "$arch" arch)
           else ret url1) ;;
  if str_contains "$releasever" url2 then
    release <- effect (RunCommand "rpm" ["-q"; "openEuler-release"]) rpm_release_output ;;
    let parts := str_split "-" release in
    match nth_error parts 2 with
    | Some releasever => ret (str_replace url2 "$releasever" releasever)
    | None => ([], Panic (IndexOutOfBounds 2 (length parts)))
    end
  else ret url2.

(** The outer loop of [from_file]: [repos] is the vector built so far. *)
Fixpoint load_sections (sections : list (string * IniSection)) (repos : list Repo) : M E (list Repo) :=
  match sections with
  | [] => ret repos
  | (_, kvs) :: rest =>
      nb <- scan_section kvs "" "" ;;
      url <- substitute_vars nb.2 ;;
      repo <- from_baseurl url ;;
      load_sections rest (repos ++ [mkRepo (packages repo) nb.1])
  end.

(** [path] is the [&Path] as its UTF-8 string: the panic of
    [path.to_str().unwrap()] on a path that is not valid UTF-8 lies
    outside the model. *)
Definition from_file (path : string) : M E (list Repo) :=
  map <- (match load_ini path with
          | Core.Ok m => ret m
          | Core.Err msg => ([], Panic (UnwrapErr msg))
          end) ;;
  load_sections map [].

End Load.

End RepoIO.

(** * Properties of the metadata deserialisation *)
Module RepoMetaFacts.
Import RepoMeta.

Lemma de_version_fields (fs : Fields) (v : Version) :
  de_version fs = Core.Ok v ->
  field_values fs "epoch" = [epoch v] /\ field_values fs "ver" = [ver v] /\
  field_values fs "rel" = [rel v].
Proof.
  unfold de_version, required_field.
  destruct (field_values fs "epoch") as [|e [|]]; try discriminate.
  destruct (field_values fs "ver") as [|x [|]]; try discriminate.
  destruct (field_values fs "rel") as [|y [|]]; try discriminate.
  intros H. injection H as <-. simpl. auto.
Qed.

Lemma de_version_missing_epoch (fs : Fields) :
  field_values fs "epoch" = [] -> de_version fs = Core.Err (MissingField "epoch").
Proof. intros H. unfold de_version, required_field. by rewrite H. Qed.

Lemma de_packages_origin (raws : list RawPackage) (ps : list Package) :
  de_packages raws = Core.Ok ps ->
  forall p, p ∈ ps -> exists raw, raw ∈ raws /\ de_package raw = Core.Ok p.
Proof.
  revert ps. induction raws as [|raw raws IH]; intros ps H p Hp; simpl in H.
  - injection H as <-. by apply not_elem_of_nil in Hp.
  - destruct (de_package raw) as [q|e] eqn:Hq; [|discriminate].
    destruct (de_packages raws) as [qs|e] eqn:Hqs; [|discriminate].
    injection H as <-. apply elem_of_cons in Hp as [->|Hp].
    + exists raw. split; [apply elem_of_cons; by left | done].
    + destruct (IH qs eq_refl p Hp) as (r & Hr & Hd).
      exists r. split; [apply elem_of_cons; by right | done].
Qed.

Lemma de_packages_error (raws : list RawPackage) (raw : RawPackage) :
  raw ∈ raws -> (exists e, de_package raw = Core.Err e) ->
  exists e, de_packages raws = Core.Err e.
Proof.
  induction raws as [|r raws IH]; intros Hin [e He].
  - by apply not_elem_of_nil in Hin.
  - simpl. apply elem_of_cons in Hin as [->|Hin].
    + rewrite He. eauto.
    + destruct (de_package r) as [q|e']; [|eauto].
      destruct (IH Hin (ex_intro _ e He)) as [e' ->]. eauto.
Qed.

Lemma repo_of_primary_Ok (raws : list RawPackage) (repo : Repo) :
  repo_of_primary raws = Core.Ok repo ->
  raws <> [] /\ de_packages raws = Core.Ok (packages repo) /\ repo_name repo = "".
Proof.
  unfold repo_of_primary. destruct raws as [|r rs]; [discriminate|].
  destruct (de_packages (r :: rs)) as [ps|e]; [|discriminate].
  by intros [= <-].
Qed.

Lemma repo_of_primary_Err (raws : list RawPackage) (e : DeError) :
  de_packages raws = Core.Err e -> repo_of_primary raws = Core.Err e.
Proof.
  unfold repo_of_primary. destruct raws as [|r rs]; [discriminate|]. by intros ->.
Qed.

(** C9 (amended). A repository parsed from primary.xml carries, for
    every package, the epoch, ver and rel fields copied verbatim as
    strings from its [<version>] element; a [<version>] element without
    an epoch makes the whole parse fail: the epoch is never defaulted. *)
Theorem repo_versions_verbatim (raws : list RawPackage) :
  (forall repo, repo_of_primary raws = Core.Ok repo ->
     forall p, p ∈ packages repo ->
       exists raw, raw ∈ raws /\
         field_values (raw_version raw) "epoch" = [epoch (version p)] /\
         field_values (raw_version raw) "ver" = [ver (version p)] /\
         field_values (raw_version raw) "rel" = [rel (version p)]) /\
  (forall raw, raw ∈ raws -> field_values (raw_version raw) "epoch" = [] ->
     exists e, repo_of_primary raws = Core.Err e).
Proof.
  split.
  - intros repo H p Hp. apply repo_of_primary_Ok in H as (_ & Hps & _).
    destruct (de_packages_origin raws _ Hps p Hp) as (raw & Hin & Hd).
    exists raw. split; [done|].
    unfold de_package in Hd.
    destruct (required_field (raw_fields raw) "type"); [|discriminate].
    destruct (required_field (raw_fields raw) "name"); [|discriminate].
    destruct (de_version (raw_version raw)) as [v|] eqn:Hv; [|discriminate].
    injection Hd as <-. by apply de_version_fields.
  - intros raw Hin Hnone.
    destruct (de_packages_error raws raw Hin) as [e He]; [|exists e; by apply repo_of_primary_Err].
    unfold de_package.
    destruct (required_field (raw_fields raw) "type"); [|eauto].
    destruct (required_field (raw_fields raw) "name"); [|eauto].
    rewrite de_version_missing_epoch by done. eauto.
Qed.

Definition raw_foo (version_fields : Fields) : RawPackage :=
  mkRawPackage [("type", "rpm"); ("name", "foo")] version_fields.

Lemma repo_versions_verbatim_witness :
  raw_foo [("ver", "1.0"); ("rel", "1")] ∈ [raw_foo [("ver", "1.0"); ("rel", "1")]] /\
  exists e, repo_of_primary [raw_foo [("ver", "1.0"); ("rel", "1")]] = Core.Err e.
Proof.
  split; [apply elem_of_cons; by left|].
  apply (proj2 (repo_versions_verbatim [raw_foo [("ver", "1.0"); ("rel", "1")]])
    (raw_foo [("ver", "1.0"); ("rel", "1")])).
  - apply elem_of_cons; by left.
  - reflexivity.
Defined.

(** C9 (counterexample). A version element without an epoch does not
    yield epoch 0 but a parse error, and a non-numeric epoch is kept as
    it is. *)
Lemma missing_epoch_not_normalised :
  repo_of_primary [raw_foo [("ver", "1.0"); ("rel", "1")]] = Core.Err (MissingField "epoch") /\
  repo_of_primary [raw_foo [("epoch", "abc"); ("ver", "1.0"); ("rel", "1")]] =
    Core.Ok (mkRepo [mkPackage "rpm" "foo" (mkVersion "abc" "1.0" "1")] "").
Proof. split; reflexivity. Qed.

End RepoMetaFacts.

(** * Properties of the command-line entry point *)
Module CliFacts.
Import Cli.

Lemma requested_packages_from (i : nat) (names : list string) :
  map snd (filter (fun iv => 0 < iv.1) (enumerate_from (S i) names)) = names.
Proof.
  revert i. induction names as [|n names IH]; intros i; [done|].
  simpl. by rewrite IH.
Qed.

Lemma requested_packages_tail (prog : string) (names : list string) :
  requested_packages (prog :: names) = names.
Proof.
  unfold requested_packages. simpl.
  apply requested_packages_from.
Qed.

(** C10. With no argument besides the program name, [main] panics with
    "Package name not found!" and performs no effect before: no
    configuration is loaded and no repository is contacted. *)
Theorem main_without_packages_panics (Config Repo AnyError SolveErr : Type)
    (load_config : Core.result Config AnyError) (get_repo_baseurl : Config -> option string)
    (repo_from_baseurl : string -> Core.result Repo AnyError)
    (solve : Repo -> string -> Core.result bool SolveErr) (prog : string) :
  main Config Repo AnyError SolveErr load_config get_repo_baseurl repo_from_baseurl solve [prog] =
    ([], Panicked "Package name not found!").
Proof. reflexivity. Qed.

(** C8 (amended). For a non-empty list of requested names: once the
    configuration is loaded, the base URL is found and the repository
    is fetched, [main] prints exactly one report line per requested
    name, in order, whatever each check returns, and returns [Ok]; if
    the configuration or the repository cannot be loaded, it returns
    that error before printing any line, and without a base URL it
    panics before printing any line. *)
Theorem main_reports_every_package (Config Repo AnyError SolveErr : Type)
    (load_config : Core.result Config AnyError) (get_repo_baseurl : Config -> option string)
    (repo_from_baseurl : string -> Core.result Repo AnyError)
    (solve : Repo -> string -> Core.result bool SolveErr)
    (prog : string) (names : list string) :
  names <> [] ->
  let run := main Config Repo AnyError SolveErr load_config get_repo_baseurl repo_from_baseurl
               solve (prog :: names) in
  (forall cfg url repo, load_config = Core.Ok cfg -> get_repo_baseurl cfg = Some url ->
     repo_from_baseurl url = Core.Ok repo ->
     run = ([LoadConfig; FetchRepo url] ++
              map (fun n => Print (report_line n (solve repo n))) names,
            Returned (Core.Ok tt))) /\
  (forall e, load_config = Core.Err e -> run = ([LoadConfig], Returned (Core.Err e))) /\
  (forall cfg url e, load_config = Core.Ok cfg -> get_repo_baseurl cfg = Some url ->
     repo_from_baseurl url = Core.Err e ->
     run = ([LoadConfig; FetchRepo url], Returned (Core.Err e))) /\
  (forall cfg, load_config = Core.Ok cfg -> get_repo_baseurl cfg = None ->
     run = ([LoadConfig], Panicked "Repo baseurl not found! Please check the config file!")).
Proof.
  intros Hnames run. subst run. unfold main. rewrite requested_packages_tail.
  destruct names as [|n names]; [done|].
  split; [|split; [|split]].
  - intros cfg url repo -> Hurl Hrepo. by rewrite Hurl, Hrepo.
  - by intros e ->.
  - intros cfg url e -> Hurl Hrepo. by rewrite Hurl, Hrepo.
  - intros cfg -> Hurl. by rewrite Hurl.
Qed.

Definition demo_solve (_ : unit) (n : string) : Core.result bool unit :=
  if bool_decide (n = "A") then Core.Err tt else Core.Ok true.

Lemma main_reports_every_package_witness :
  main unit unit unit unit (Core.Ok tt) (fun _ => Some "http://repo/") (fun _ => Core.Ok tt)
    demo_solve ["rust-solv"; "A"; "B"] =
  ([LoadConfig; FetchRepo "http://repo/";
    Print "Error: something wrong happened while solving the dependency problem of package A.";
    Print "Congratulations! Package B's dependencies can be satisfied in the repo. :)"],
   Returned (Core.Ok tt)) /\
  main unit unit unit unit (Core.Ok tt) (fun _ => Some "http://repo/") (fun _ => Core.Err tt)
    demo_solve ["rust-solv"; "A"; "B"] =
  ([LoadConfig; FetchRepo "http://repo/"], Returned (Core.Err tt)).
Proof.
  pose proof (main_reports_every_package unit unit unit unit (Core.Ok tt)
    (fun _ => Some "http://repo/") (fun _ => Core.Ok tt) demo_solve "rust-solv" ["A"; "B"]
    ltac:(discriminate)) as Hok.
  pose proof (main_reports_every_package unit unit unit unit (Core.Ok tt)
    (fun _ => Some "http://repo/") (fun _ => Core.Err tt) demo_solve "rust-solv" ["A"; "B"]
    ltac:(discriminate)) as Herr.
  split.
  - rewrite (proj1 Hok tt "http://repo/" tt eq_refl eq_refl eq_refl). reflexivity.
  - exact (proj1 (proj2 (proj2 Herr)) tt "http://repo/" tt eq_refl eq_refl eq_refl).
Defined.

(** C8 (counterexample). When the configuration file cannot be loaded,
    [main] returns the error before any requested name is processed. *)
Lemma main_config_error_skips_packages :
  main unit unit unit unit (Core.Err tt) (fun _ => Some "http://repo/") (fun _ => Core.Ok tt)
    demo_solve ["rust-solv"; "A"] = ([LoadConfig], Returned (Core.Err tt)).
Proof. reflexivity. Qed.

End CliFacts.

(** * Properties of the version ordering *)
Module VersionFacts.
Import Core.

Lemma string_compare_refl (a : string) : String.compare a a = Eq.
Proof.
  induction a as [|c a IH]; [done|]. simpl.
  unfold Ascii.compare. by rewrite N.compare_refl.
Qed.

Lemma string_compare_lt_trans (a b c : string) :
  String.compare a b = Lt -> String.compare b c = Lt -> String.compare a c = Lt.
Proof.
  revert b c. induction a as [|x a IH]; intros [|y b] [|z c]; simpl; try congruence.
  unfold Ascii.compare.
  destruct (N.compare_spec (N_of_ascii x) (N_of_ascii y)) as [Hxy|Hxy|Hxy];
  destruct (N.compare_spec (N_of_ascii y) (N_of_ascii z)) as [Hyz|Hyz|Hyz];
  try congruence;
  destruct (N.compare_spec (N_of_ascii x) (N_of_ascii z)); try lia; eauto.
Qed.

Lemma run_cmp_antisym (x y : run) : run_cmp y x = CompOpp (run_cmp x y).
Proof.
  destruct x, y; simpl; try done.
  - apply N.compare_antisym.
  - apply String.compare_antisym.
Qed.

Lemma run_cmp_eq_l (x y z : run) : run_cmp x y = Eq -> run_cmp x z = run_cmp y z.
Proof.
  destruct x as [a|a], y as [b|b], z as [c|c]; simpl; try discriminate; try done.
  - intros H%N.compare_eq_iff. by rewrite H.
  - by intros ->%String.compare_eq_iff.
Qed.

Lemma run_cmp_eq_r (x y z : run) : run_cmp y z = Eq -> run_cmp x y = run_cmp x z.
Proof.
  intros Hyz. rewrite (run_cmp_antisym y x), (run_cmp_antisym z x).
  rewrite (run_cmp_eq_l z y x); [done|].
  rewrite run_cmp_antisym, Hyz. done.
Qed.

Lemma run_cmp_eq_alpha (x y : run) : run_cmp x y = Eq -> all_alpha_run x = all_alpha_run y.
Proof.
  destruct x as [a|a], y as [b|b]; simpl; try discriminate; try done.
  by intros ->%String.compare_eq_iff.
Qed.

Lemma run_cmp_lt_trans (x y z : run) :
  run_cmp x y = Lt -> run_cmp y z = Lt -> run_cmp x z = Lt.
Proof.
  destruct x as [a|a], y as [b|b], z as [c|c]; simpl; try discriminate; try done.
  - rewrite !N.compare_lt_iff. lia.
  - apply string_compare_lt_trans.
Qed.

Lemma seg_cmp_antisym (xs ys : list run) : seg_cmp ys xs = CompOpp (seg_cmp xs ys).
Proof.
  revert ys. induction xs as [|x xs IH]; intros [|y ys]; simpl; try done.
  - by destruct (all_alpha_run y).
  - by destruct (all_alpha_run x).
  - rewrite (run_cmp_antisym x y). destruct (run_cmp x y); simpl; auto.
Qed.

Lemma seg_cmp_eq_l (xs ys zs : list run) : seg_cmp xs ys = Eq -> seg_cmp xs zs = seg_cmp ys zs.
Proof.
  revert ys zs. induction xs as [|x xs IH]; intros [|y ys] [|z zs]; simpl; try done;
    try (destruct (all_alpha_run _); discriminate).
  - destruct (run_cmp x y) eqn:Hxy; try discriminate. intros _.
    by rewrite (run_cmp_eq_alpha x y Hxy).
  - destruct (run_cmp x y) eqn:Hxy; try discriminate. intros H.
    rewrite (run_cmp_eq_l x y z Hxy). destruct (run_cmp y z); auto.
Qed.

Definition no_alpha_runs (xs : list run) : Prop := Forall (fun r => all_alpha_run r = false) xs.

Lemma seg_cmp_lt_trans (xs ys zs : list run) :
  no_alpha_runs xs -> no_alpha_runs ys -> no_alpha_runs zs ->
  seg_cmp xs ys = Lt -> seg_cmp ys zs = Lt -> seg_cmp xs zs = Lt.
Proof.
  unfold no_alpha_runs.
  revert ys zs. induction xs as [|x xs IH]; intros [|y ys] [|z zs] Hx Hy Hz;
    repeat match goal with H : Forall _ (_ :: _) |- _ => apply Forall_cons in H as [? ?] end;
    simpl; repeat match goal with H : all_alpha_run _ = false |- _ => rewrite H; clear H end;
    try done; try discriminate.
  intros H12 H23.
  destruct (run_cmp x y) eqn:Hxy; try discriminate.
  - rewrite (run_cmp_eq_l x y z Hxy).
    destruct (run_cmp y z) eqn:Hyz; try discriminate; [|done].
    by apply (IH ys zs).
  - destruct (run_cmp y z) eqn:Hyz; try discriminate.
    + by rewrite <- (run_cmp_eq_r x y z Hyz), Hxy.
    + by rewrite (run_cmp_lt_trans x y z).
Qed.

Lemma seg_cmp_eq_r (xs ys zs : list run) : seg_cmp ys zs = Eq -> seg_cmp xs ys = seg_cmp xs zs.
Proof.
  intros H. rewrite (seg_cmp_antisym ys xs), (seg_cmp_antisym zs xs).
  rewrite (seg_cmp_eq_l zs ys xs); [done|].
  by rewrite seg_cmp_antisym, H.
Qed.

Lemma seg_cmp_refl (xs : list run) : seg_cmp xs xs = Eq.
Proof.
  induction xs as [|[d|o] xs IH]; simpl; [done| |].
  - by rewrite N.compare_refl.
  - by rewrite string_compare_refl.
Qed.

Lemma runs_no_alpha (s : string) : no_letters s = true -> no_alpha_runs (runs s).
Proof.
  unfold no_alpha_runs. induction s as [|c s IH]; simpl; [by constructor|].
  intros [Hc Hs]%andb_prop. apply negb_true_iff in Hc. specialize (IH Hs).
  destruct (runs s) as [|[d|o] rs]; destruct (is_digit c);
    repeat constructor; simpl; rewrite ?Hc; try done;
    apply Forall_cons in IH as [? ?]; done.
Qed.

(** Lexicographic combination of two comparisons. *)
Lemma lex_eq_l {A} (f g : A -> A -> comparison) (a b c : A) :
  (f a b = Eq -> f a c = f b c) -> (g a b = Eq -> g a c = g b c) ->
  (match f a b with Eq => g a b | o => o end) = Eq ->
  (match f a c with Eq => g a c | o => o end) = (match f b c with Eq => g b c | o => o end).
Proof.
  intros Hf Hg. destruct (f a b) eqn:Hab; try discriminate. intros Hgab.
  rewrite Hf by done. destruct (f b c); [|done|done]. auto.
Qed.

Lemma lex_lt_trans {A} (f g : A -> A -> comparison) (a b c : A) :
  (f a b = Eq -> f a c = f b c) -> (f b c = Eq -> f a b = f a c) ->
  (f a b = Lt -> f b c = Lt -> f a c = Lt) ->
  (g a b = Lt -> g b c = Lt -> g a c = Lt) ->
  (match f a b with Eq => g a b | o => o end) = Lt ->
  (match f b c with Eq => g b c | o => o end) = Lt ->
  (match f a c with Eq => g a c | o => o end) = Lt.
Proof.
  intros Hl Hr Ht Hg. destruct (f a b) eqn:Hab; try discriminate.
  - rewrite Hl by done. destruct (f b c) eqn:Hbc; try discriminate; auto.
  - intros _. destruct (f b c) eqn:Hbc; try discriminate.
    + intros _. by rewrite <- Hr.
    + intros _. by rewrite Ht.
Qed.

Definition ver_cmp (a b : Version) : comparison := segcmp_str (ver a) (ver b).
Definition rel_cmp (a b : Version) : comparison := segcmp_str (rel a) (rel b).
Definition epoch_cmp (a b : Version) : comparison := N.compare (epoch a) (epoch b).
Definition verrel_cmp (a b : Version) : comparison :=
  match ver_cmp a b with Eq => rel_cmp a b | o => o end.

Lemma version_cmp_lex (a b : Version) :
  version_cmp a b = match epoch_cmp a b with Eq => verrel_cmp a b | o => o end.
Proof. reflexivity. Qed.

Lemma version_cmp_antisym (a b : Version) : version_cmp b a = CompOpp (version_cmp a b).
Proof.
  unfold version_cmp, segcmp_str.
  rewrite (N.compare_antisym (epoch a) (epoch b)),
    (seg_cmp_antisym (runs (ver a)) (runs (ver b))),
    (seg_cmp_antisym (runs (rel a)) (runs (rel b))).
  destruct (N.compare (epoch a) (epoch b)), (seg_cmp (runs (ver a)) (runs (ver b))),
    (seg_cmp (runs (rel a)) (runs (rel b))); reflexivity.
Qed.

Lemma version_cmp_refl (a : Version) : version_cmp a a = Eq.
Proof. unfold version_cmp, segcmp_str. by rewrite N.compare_refl, !seg_cmp_refl. Qed.

Lemma version_cmp_eq_l (a b c : Version) :
  version_cmp a b = Eq -> version_cmp a c = version_cmp b c.
Proof.
  rewrite !version_cmp_lex. apply lex_eq_l.
  - unfold epoch_cmp. intros ->%N.compare_eq_iff. done.
  - unfold verrel_cmp. apply lex_eq_l; apply seg_cmp_eq_l.
Qed.

Definition version_no_letters (v : Version) : Prop :=
  no_letters (ver v) = true /\ no_letters (rel v) = true.

Lemma version_cmp_lt_trans (a b c : Version) :
  version_no_letters a -> version_no_letters b -> version_no_letters c ->
  version_cmp a b = Lt -> version_cmp b c = Lt -> version_cmp a c = Lt.
Proof.
  intros [Hva Hra] [Hvb Hrb] [Hvc Hrc]. rewrite !version_cmp_lex.
  apply lex_lt_trans.
  - unfold epoch_cmp. intros ->%N.compare_eq_iff. done.
  - unfold epoch_cmp. intros ->%N.compare_eq_iff. done.
  - unfold epoch_cmp. rewrite !N.compare_lt_iff. lia.
  - unfold verrel_cmp. apply lex_lt_trans.
    + apply seg_cmp_eq_l.
    + apply seg_cmp_eq_r.
    + apply seg_cmp_lt_trans; by apply runs_no_alpha.
    + apply seg_cmp_lt_trans; by apply runs_no_alpha.
Qed.

(** C4 (counterexample). The ordering has a cycle: "1." < "1a" since
    '.' sorts before 'a'; "1a" < "1" since the remaining run "a" is
    all-alpha; "1" < "1." since the remaining run "." is not. *)
Lemma version_order_cycle :
  version_lt (mkVersion 0 "1." "1") (mkVersion 0 "1a" "1") /\
  version_lt (mkVersion 0 "1a" "1") (mkVersion 0 "1" "1") /\
  version_lt (mkVersion 0 "1" "1") (mkVersion 0 "1." "1") /\
  ~ (forall a b c, version_lt a b -> version_lt b c -> version_lt a c).
Proof.
  split; [reflexivity|]. split; [reflexivity|]. split; [reflexivity|].
  intros H.
  specialize (H (mkVersion 0 "1." "1") (mkVersion 0 "1a" "1") (mkVersion 0 "1" "1")
    eq_refl eq_refl).
  discriminate H.
Qed.

(** C4 (amended). The version comparison is antisymmetric (so exactly
    one of a<b, a=b, a>b holds, with a=b meaning that the comparison
    finds them equal), its equality is transitive and compatible with
    the order, and the order is transitive on versions whose version
    and release strings contain no letters; with letters it is not
    transitive in general ([version_order_cycle]). *)
Theorem version_order_amended :
  (forall a b : Version, version_cmp b a = CompOpp (version_cmp a b)) /\
  (forall a b c : Version, version_cmp a b = Eq -> version_cmp a c = version_cmp b c) /\
  (forall a b c : Version,
     version_no_letters a -> version_no_letters b -> version_no_letters c ->
     version_lt a b -> version_lt b c -> version_lt a c).
Proof.
  split; [apply version_cmp_antisym|]. split; [apply version_cmp_eq_l|].
  apply version_cmp_lt_trans.
Qed.

Lemma version_order_amended_witness :
  version_lt (mkVersion 0 "1.2" "1") (mkVersion 0 "1.10.1" "1").
Proof.
  apply (proj2 (proj2 version_order_amended) (mkVersion 0 "1.2" "1")
    (mkVersion 0 "1.10" "1") (mkVersion 0 "1.10.1" "1"));
    [split; reflexivity | split; reflexivity | split; reflexivity | reflexivity | reflexivity].
Defined.

Lemma runs_text_runs (s : string) : runs_text (runs s) = s.
Proof.
  induction s as [|c s IH]; simpl; [done|].
  destruct (runs s) as [|[d|o] rs]; destruct (is_digit c); simpl in *; rewrite <- IH; reflexivity.
Qed.

Lemma runs_ok (s : string) : forallb run_ok (runs s) = true.
Proof.
  induction s as [|c s IH]; simpl; [done|].
  destruct (runs s) as [|[d|o] rs]; destruct (is_digit c) eqn:Hc; simpl in *;
    rewrite ?Hc; simpl; try exact IH; try done.
  - revert IH. by destruct (bool_decide _), (all_digits d), (forallb run_ok rs).
  - revert IH. by destruct (bool_decide _), (no_digits o), (forallb run_ok rs).
Qed.

Lemma runs_alternating (s : string) : alternating (runs s) = true.
Proof.
  induction s as [|c s IH]; simpl; [done|].
  destruct (runs s) as [|[d|o] rs]; destruct (is_digit c); simpl in *; auto;
    destruct rs; auto.
Qed.

Lemma runs_digits (d : string) : all_digits d = true -> d <> EmptyString -> runs d = [DigitRun d].
Proof.
  induction d as [|c d IH]; [done|]. simpl. intros [Hc Hd]%andb_prop _.
  destruct d as [|c' d'].
  - simpl. by rewrite Hc.
  - rewrite IH by done. by rewrite Hc.
Qed.

Lemma runs_other (o : string) : no_digits o = true -> o <> EmptyString -> runs o = [OtherRun o].
Proof.
  induction o as [|c o IH]; [done|]. simpl. intros [Hc Ho]%andb_prop _.
  apply negb_true_iff in Hc.
  destruct o as [|c' o'].
  - simpl. by rewrite Hc.
  - rewrite IH by done. by rewrite Hc.
Qed.

(** C7. The version string is split into maximal runs: the runs are
    non-empty, each all digits or all non-digits, consecutive runs
    alternate, and together they spell the string; a digit run compares
    as an integer and a non-digit run lexicographically; and the
    exhaustion rule gives "1.2" < "1.10", "1.0" < "1.0.1" and
    "1.0a" < "1.0". *)
Theorem segment_comparison_spec :
  (forall s : string,
     runs_text (runs s) = s /\ forallb run_ok (runs s) = true /\ alternating (runs s) = true) /\
  (forall d e : string, all_digits d = true -> all_digits e = true ->
     d <> EmptyString -> e <> EmptyString ->
     segcmp_str d e = N.compare (digits_value d) (digits_value e)) /\
  (forall o o' : string, no_digits o = true -> no_digits o' = true ->
     o <> EmptyString -> o' <> EmptyString ->
     segcmp_str o o' = String.compare o o') /\
  segcmp_str "1.2" "1.10" = Lt /\ segcmp_str "1.0" "1.0.1" = Lt /\
  segcmp_str "1.0a" "1.0" = Lt /\
  version_lt (mkVersion 0 "1.2" "1") (mkVersion 0 "1.10" "1").
Proof.
  split; [intros s; split; [apply runs_text_runs|split; [apply runs_ok|apply runs_alternating]]|].
  split.
  { intros d e Hd He Hd0 He0. unfold segcmp_str.
    rewrite (runs_digits d), (runs_digits e) by done. simpl.
    by destruct (N.compare (digits_value d) (digits_value e)). }
  split.
  { intros o o' Ho Ho' Ho0 Ho0'. unfold segcmp_str.
    rewrite (runs_other o), (runs_other o') by done. simpl.
    by destruct (String.compare o o'). }
  repeat split; reflexivity.
Qed.

Lemma segment_comparison_spec_witness :
  segcmp_str "0010" "9" = Gt.
Proof.
  rewrite (proj1 (proj2 segment_comparison_spec) "0010" "9");
    [reflexivity | reflexivity | reflexivity | discriminate | discriminate].
Defined.

End VersionFacts.

(** * Properties of the capability index and of the solver *)
Module SolverFacts.
Import Core VersionFacts.

(** ** The index *)

Lemma index_add_lookup (p : Package) (idx : CapabilityIndex) (c : CapabilityRef) (n : string) :
  lookup_providers (index_add p idx c) n =
    lookup_providers idx n ++ (if bool_decide (cname c = n) then [(p, provided_version c)] else []).
Proof.
  unfold index_add, lookup_providers at 1. case_bool_decide as Hn.
  - subst n. rewrite lookup_insert_eq. done.
  - rewrite lookup_insert_ne by done. by rewrite app_nil_r.
Qed.

Lemma foldl_index_add_lookup (p : Package) (cs : list CapabilityRef) (idx : CapabilityIndex) (n : string) :
  lookup_providers (foldl (index_add p) idx cs) n =
    lookup_providers idx n ++
      map (fun c => (p, provided_version c)) (filter (fun c => cname c = n) cs).
Proof.
  revert idx. induction cs as [|c cs IH]; intros idx; simpl.
  - by rewrite app_nil_r.
  - rewrite IH, index_add_lookup, <- app_assoc. f_equal.
    rewrite filter_cons. case_bool_decide; case_decide; done.
Qed.

Lemma foldl_index_package_lookup (ps : list Package) (idx : CapabilityIndex) (n : string) :
  lookup_providers (foldl index_package idx ps) n = lookup_providers idx n ++ catalog_providers ps n.
Proof.
  revert idx. induction ps as [|p ps IH]; intros idx; simpl.
  - by rewrite app_nil_r.
  - rewrite IH. unfold index_package. rewrite foldl_index_add_lookup, <- app_assoc. done.
Qed.

(** Looking a name up in the index gives its providers in catalog
    order. *)
Lemma build_index_lookup (cat : Catalog) (n : string) :
  lookup_providers (build_index cat) n = catalog_providers (packages cat) n.
Proof. unfold build_index. by rewrite foldl_index_package_lookup. Qed.

Lemma catalog_providers_elem (ps : list Package) (n : string) (e : Package * option Version) :
  e ∈ catalog_providers ps n <->
  exists p c, p ∈ ps /\ c ∈ effective_provides p /\ cname c = n /\ e = (p, provided_version c).
Proof.
  unfold catalog_providers, package_providers.
  rewrite list_elem_of_In, in_concat. split.
  - intros (l & Hl & He). apply in_map_iff in Hl as (p & <- & Hp).
    apply in_map_iff in He as (c & <- & Hc).
    apply list_elem_of_In, list_elem_of_filter in Hc as [Hn Hc].
    exists p, c. rewrite list_elem_of_In. auto.
  - intros (p & c & Hp & Hc & Hn & ->). eexists. split.
    + apply in_map_iff. exists p. split; [done|]. by apply list_elem_of_In.
    + apply in_map_iff. exists c. split; [done|].
      apply list_elem_of_In, list_elem_of_filter. done.
Qed.

(** ** Deterministic choice *)

Lemma max_first_elem {A} (cmp : A -> A -> comparison) (best : A) (l : list A) :
  max_first cmp best l ∈ best :: l.
Proof.
  revert best. induction l as [|x l IH]; intros best; simpl; [by left|].
  destruct (cmp x best).
  - specialize (IH best). set_solver.
  - specialize (IH best). set_solver.
  - specialize (IH x). set_solver.
Qed.

Lemma greatest_elem {A} (cmp : A -> A -> comparison) (l : list A) (x : A) :
  greatest cmp l = Some x -> x ∈ l.
Proof.
  destruct l as [|y l]; simpl; [discriminate|]. intros [= <-]. apply max_first_elem.
Qed.

Lemma greatest_None {A} (cmp : A -> A -> comparison) (l : list A) :
  greatest cmp l = None <-> l = [].
Proof. destruct l; simpl; split; congruence. Qed.

Lemma select_provider_elem (lk : Lookup) (r : CapabilityRef) (p : Package) :
  select_provider lk r = Some p -> exists v, (p, v) ∈ lk (cname r).
Proof.
  unfold select_provider.
  destruct (greatest _ (satisfying_providers lk r)) as [[q v]|] eqn:Hg; simpl; [|discriminate].
  intros [= <-]. apply greatest_elem in Hg.
  unfold satisfying_providers in Hg. apply list_elem_of_filter in Hg as [_ Hg]. eauto.
Qed.

Lemma select_provider_None (lk : Lookup) (r : CapabilityRef) :
  select_provider lk r = None <->
  forall e, e ∈ lk (cname r) -> satisfies (constraint r) (snd e) = false.
Proof.
  unfold select_provider.
  rewrite fmap_None, greatest_None. unfold satisfying_providers.
  induction (lk (cname r)) as [|e l IH].
  - split; [intros _ e He; by apply not_elem_of_nil in He | done].
  - rewrite filter_cons. split.
    + case_decide as He; [discriminate|]. apply not_true_is_false in He.
      intros Hl e' [->|He']%elem_of_cons; [done|]. by apply IH.
    + intros H. rewrite decide_False by (rewrite (H e) by (apply elem_of_cons; by left); done).
      apply IH. intros e' He'. apply H. apply elem_of_cons. by right.
Qed.

Lemma select_root_elem (cat : Catalog) (n : string) (root : Package) :
  select_root cat n = Some root -> root ∈ packages cat /\ name root = n.
Proof.
  unfold select_root. intros Hg%greatest_elem.
  apply list_elem_of_filter in Hg as [Hn Hin]. done.
Qed.

Lemma select_root_None (cat : Catalog) (n : string) :
  select_root cat n = None <-> forall p, p ∈ packages cat -> name p <> n.
Proof.
  unfold select_root. rewrite greatest_None.
  induction (packages cat) as [|p ps IH].
  - split; [intros _ p Hp; by apply not_elem_of_nil in Hp | done].
  - rewrite filter_cons. split.
    + case_decide as Hn; [discriminate|].
      intros Hl q [->|Hq]%elem_of_cons; [done|]. by apply IH.
    + intros H. rewrite decide_False by (apply H; apply elem_of_cons; by left).
      apply IH. intros q Hq. apply H. apply elem_of_cons. by right.
Qed.

(** ** The closure loop *)

Lemma requires_in_all (ps : list Package) (p : Package) (r : CapabilityRef) :
  p ∈ ps -> r ∈ requires p -> r ∈ concat (map requires ps).
Proof.
  induction ps as [|q ps IH]; simpl; [by intros ?%not_elem_of_nil|].
  intros [->|Hp]%elem_of_cons Hr; apply elem_of_app; [by left|right; auto].
Qed.

Lemma requires_length (ps : list Package) (p : Package) :
  p ∈ ps -> length (requires p) <= length (concat (map requires ps)).
Proof.
  induction ps as [|q ps IH]; simpl; [by intros ?%not_elem_of_nil|].
  rewrite length_app. intros [->|Hp]%elem_of_cons; [lia|]. specialize (IH Hp). lia.
Qed.

Lemma add_selected_elem (p q : Package) (sel : list Package) :
  q ∈ add_selected p sel -> q = p \/ q ∈ sel.
Proof.
  unfold add_selected. destruct (existsb _ _); [auto|].
  intros [Hq|Hq]%elem_of_app; [auto|]. apply list_elem_of_singleton in Hq. auto.
Qed.

Section Closure.
Variable cat : Catalog.
Variable lk : Lookup.
(** The lookup only returns packages of the catalog. *)
Hypothesis lk_in_catalog : forall n p v, (p, v) ∈ lk n -> p ∈ packages cat.

Lemma visited_length (vis : list CapabilityRef) :
  NoDup vis -> (forall r, r ∈ vis -> r ∈ all_requires cat) ->
  length vis <= length (all_requires cat).
Proof. intros Hnd Hin. apply submseteq_length, NoDup_submseteq; auto. Qed.

(** Each iteration lowers [length fr + L * (L - length vis)]: a skipped
    requirement leaves the queue, and a processed one is a new element
    of [visited], which is a duplicate-free list of requirements of the
    catalog, while it enqueues at most [L] requirements. *)
Lemma closure_not_None (fuel : nat) (sel : list Package) (fr vis : list CapabilityRef) :
  (forall r, r ∈ fr -> r ∈ all_requires cat) ->
  (forall r, r ∈ vis -> r ∈ all_requires cat) -> NoDup vis ->
  length fr + length (all_requires cat) * (length (all_requires cat) - length vis) < fuel ->
  closure lk fuel sel fr vis <> None.
Proof.
  set (L := length (all_requires cat)).
  revert sel fr vis. induction fuel as [|f IH]; intros sel fr vis Hfr Hvis Hnd Hlt; [lia|].
  simpl. destruct fr as [|r rest]; [discriminate|].
  case_bool_decide as Hr.
  - apply IH; auto.
    + intros x Hx. apply Hfr, elem_of_cons. by right.
    + simpl in Hlt. lia.
  - destruct (select_provider lk r) as [p|] eqn:Hp; [|discriminate].
    destruct (select_provider_elem _ _ _ Hp) as [v Hv].
    pose proof (lk_in_catalog _ _ _ Hv) as Hpc.
    assert (Hr' : r ∈ all_requires cat) by (apply Hfr, elem_of_cons; by left).
    assert (Hnd' : NoDup (r :: vis)) by (apply NoDup_cons; auto).
    assert (Hvis' : forall x, x ∈ r :: vis -> x ∈ all_requires cat)
      by (intros x [->|Hx]%elem_of_cons; auto).
    pose proof (visited_length _ Hnd' Hvis') as Hlen. simpl in Hlen.
    pose proof (requires_length (packages cat) p Hpc) as Hreq.
    fold (all_requires cat) L in Hreq, Hlen.
    apply IH; auto.
    + intros x [Hx|Hx]%elem_of_app.
      * apply Hfr, elem_of_cons. by right.
      * by apply (requires_in_all (packages cat) p).
    + assert (Hm : L * (L - length vis) = L * (L - S (length vis)) + L)
        by (rewrite <- Nat.mul_succ_r; f_equal; lia).
      simpl in Hlt |- *. rewrite length_app. lia.
Qed.

Lemma closure_not_unsat (fuel : nat) (sel : list Package) (fr vis : list CapabilityRef) :
  (forall r, r ∈ fr -> select_provider lk r <> None) ->
  (forall p, p ∈ packages cat -> forall r, r ∈ requires p -> select_provider lk r <> None) ->
  closure lk fuel sel fr vis <> Some None.
Proof.
  intros Hfr Hall. revert sel fr vis Hfr. induction fuel as [|f IH]; intros sel fr vis Hfr;
    simpl; [discriminate|].
  destruct fr as [|r rest]; [discriminate|].
  case_bool_decide.
  - apply IH. intros x Hx. apply Hfr, elem_of_cons. by right.
  - destruct (select_provider lk r) as [p|] eqn:Hp.
    + destruct (select_provider_elem _ _ _ Hp) as [v Hv].
      apply IH. intros x [Hx|Hx]%elem_of_app.
      * apply Hfr, elem_of_cons. by right.
      * apply (Hall p); [by apply (lk_in_catalog (cname r) _ v)|done].
    + exfalso. apply (Hfr r); [apply elem_of_cons; by left|done].
Qed.

Lemma closure_selected (fuel : nat) (sel sel' : list Package) (fr vis : list CapabilityRef) :
  (forall p, p ∈ sel -> p ∈ packages cat) ->
  closure lk fuel sel fr vis = Some (Some sel') ->
  forall p, p ∈ sel' -> p ∈ packages cat.
Proof.
  revert sel fr vis. induction fuel as [|f IH]; intros sel fr vis Hsel; simpl; [discriminate|].
  destruct fr as [|r rest]; [by intros [= <-]|].
  case_bool_decide; [by apply IH|].
  destruct (select_provider lk r) as [p|] eqn:Hp; [|discriminate].
  apply IH. intros q [->|Hq]%add_selected_elem; [|auto].
  destruct (select_provider_elem _ _ _ Hp) as [v Hv]. by apply (lk_in_catalog (cname r) _ v).
Qed.

End Closure.

(** A closure that succeeds found a provider for every requirement it
    had queued. *)
Lemma closure_ok_has_providers (lk : Lookup) (fuel : nat) (sel sel' : list Package)
    (fr vis : list CapabilityRef) :
  (forall r, r ∈ vis -> select_provider lk r <> None) ->
  closure lk fuel sel fr vis = Some (Some sel') ->
  forall r, r ∈ fr -> select_provider lk r <> None.
Proof.
  revert sel fr vis. induction fuel as [|f IH]; intros sel fr vis Hvis; simpl; [discriminate|].
  destruct fr as [|r rest]; [intros _ x Hx; by apply not_elem_of_nil in Hx|].
  case_bool_decide as Hr.
  - intros Hc x [->|Hx]%elem_of_cons; [by apply Hvis|]. by apply (IH sel rest vis).
  - destruct (select_provider lk r) as [p|] eqn:Hp; [|discriminate].
    intros Hc x [->|Hx]%elem_of_cons; [by rewrite Hp|].
    refine (IH _ _ _ _ Hc _ _).
    + intros y [->|Hy]%elem_of_cons; [by rewrite Hp|auto].
    + apply elem_of_app. by left.
Qed.

Lemma has_conflict_none (sel : list Package) :
  (forall p, p ∈ sel -> conflicts p = [] /\ obsoletes p = []) -> has_conflict sel = false.
Proof.
  intros H. unfold has_conflict, clashes.
  apply orb_false_intro.
  - destruct (existsb _ sel) eqn:E; [|done].
    apply existsb_exists in E as (p & Hp%list_elem_of_In & Hf).
    by rewrite (proj1 (H p Hp)) in Hf.
  - destruct (existsb _ sel) eqn:E; [|done].
    apply existsb_exists in E as (p & Hp%list_elem_of_In & Hf).
    by rewrite (proj2 (H p Hp)) in Hf.
Qed.

Lemma index_in_catalog (cat : Catalog) (n : string) (p : Package) (v : option Version) :
  (p, v) ∈ lookup_providers (build_index cat) n -> p ∈ packages cat.
Proof.
  rewrite build_index_lookup, catalog_providers_elem.
  intros (q & c & Hq & _ & _ & [= -> _]). done.
Qed.

Lemma self_provide_in_index (cat : Catalog) (p : Package) :
  p ∈ packages cat -> (p, Some (version p)) ∈ lookup_providers (build_index cat) (name p).
Proof.
  intros Hp. rewrite build_index_lookup, catalog_providers_elem.
  exists p, (self_provide p). split; [done|]. split; [|done].
  unfold effective_provides. apply elem_of_app. right. by apply list_elem_of_singleton.
Qed.

Lemma provider_found (lk : Lookup) (r : CapabilityRef) (e : Package * option Version) :
  e ∈ lk (cname r) -> satisfies (constraint r) (snd e) = true -> select_provider lk r <> None.
Proof. intros He Hs Hn. apply select_provider_None with (e := e) in Hn; congruence. Qed.

(** The solver never runs out of fuel. *)
Lemma closure_terminates (cat : Catalog) (n : string) : check_opt cat n <> None.
Proof.
  unfold check_opt, check_opt_with.
  destruct (select_root cat n) as [root|] eqn:Hroot; [|discriminate].
  destruct (select_root_elem _ _ _ Hroot) as [Hin _].
  destruct (closure _ _ _ _ _) as [o|] eqn:Hc; [by destruct o|].
  exfalso. eapply closure_not_None; [| | | | | exact Hc].
  - intros m q v. apply index_in_catalog.
  - intros r Hr. by apply (requires_in_all (packages cat) root).
  - intros r Hr. by apply not_elem_of_nil in Hr.
  - constructor.
  - unfold closure_fuel. simpl.
    pose proof (requires_length (packages cat) root Hin). fold (all_requires cat) in *. lia.
Qed.

Lemma closure_lookup_ext (lk1 lk2 : Lookup) (fuel : nat) (sel : list Package)
    (fr vis : list CapabilityRef) :
  (forall n, lk1 n = lk2 n) -> closure lk1 fuel sel fr vis = closure lk2 fuel sel fr vis.
Proof.
  intros H. revert sel fr vis. induction fuel as [|f IH]; intros sel fr vis; simpl; [done|].
  destruct fr as [|r rest]; [done|].
  assert (Hs : select_provider lk1 r = select_provider lk2 r)
    by (unfold select_provider, satisfying_providers; by rewrite H).
  rewrite Hs. case_bool_decide; [apply IH|].
  destruct (select_provider lk2 r); [apply IH|done].
Qed.

Lemma check_with_lookup_ext (lk1 lk2 : Lookup) (cat : Catalog) (n : string) :
  (forall m, lk1 m = lk2 m) -> check_with lk1 cat n = check_with lk2 cat n.
Proof.
  intros H. unfold check_with, check_opt_with.
  destruct (select_root cat n); [|done]. by rewrite (closure_lookup_ext lk1 lk2).
Qed.

Lemma select_root_Some (cat : Catalog) (n : string) :
  (exists p, p ∈ packages cat /\ name p = n) -> exists root, select_root cat n = Some root.
Proof.
  intros (p & Hp & Hn). destruct (select_root cat n) as [root|] eqn:Hr; [eauto|].
  apply select_root_None with (p := p) in Hr; [congruence|done].
Qed.

Lemma check_true_without_conflicts (cat : Catalog) (n : string) :
  (exists p, p ∈ packages cat /\ name p = n) ->
  (forall p, p ∈ packages cat -> conflicts p = [] /\ obsoletes p = []) ->
  (forall p, p ∈ packages cat -> forall r, r ∈ requires p ->
     select_provider (lookup_providers (build_index cat)) r <> None) ->
  check cat n = Ok true.
Proof.
  intros Hex Hconf Hprov.
  destruct (select_root_Some cat n Hex) as [root Hroot].
  destruct (select_root_elem _ _ _ Hroot) as [Hin _].
  pose proof (closure_terminates cat n) as Ht.
  unfold check, check_with. unfold check_opt, check_opt_with in *. rewrite Hroot in Ht |- *.
  destruct (closure _ _ _ _ _) as [[sel|]|] eqn:Hc.
  - rewrite has_conflict_none; [done|].
    intros p Hp. apply Hconf.
    refine (closure_selected cat _ _ _ _ _ _ _ _ Hc p Hp).
    + intros m q v. apply index_in_catalog.
    + intros q [->|Hq]%elem_of_cons; [done|by apply not_elem_of_nil in Hq].
  - exfalso. refine (closure_not_unsat cat _ _ _ _ _ _ _ _ Hc).
    + intros m q v. apply index_in_catalog.
    + by apply Hprov.
    + done.
  - done.
Qed.

(** ** The claims *)

Example check_cycle : check cycle_catalog "A" = Ok true.
Proof. reflexivity. Qed.
Example check_conflict : check conflict_catalog "A" = Ok false.
Proof. reflexivity. Qed.
Example check_unknown : check cycle_catalog "does-not-exist" = Err PackageNotFound.
Proof. reflexivity. Qed.


(** C1. The result of [check] is a function of the catalog and the
    package name alone, and it does not depend on how the index map is
    organised: it equals the run of the same solver on provider lists
    read off the catalog in package order. *)
Theorem check_deterministic (cat1 cat2 : Catalog) (n1 n2 : string) :
  cat1 = cat2 -> n1 = n2 ->
  check cat1 n1 = check cat2 n2 /\
  check cat1 n1 = check_with (catalog_providers (packages cat1)) cat1 n1.
Proof.
  intros -> ->. split; [done|].
  unfold check. apply check_with_lookup_ext. apply build_index_lookup.
Qed.

Lemma check_deterministic_witness :
  check cycle_catalog "A" = check cycle_catalog "A" /\
  check cycle_catalog "A" = check_with (catalog_providers (packages cycle_catalog)) cycle_catalog "A".
Proof. exact (check_deterministic cycle_catalog cycle_catalog "A" "A" eq_refl eq_refl). Defined.

(** C2. [check] fails with [PackageNotFound] exactly when no package
    of the catalog has the requested name; it has no other error, and
    when the name exists the answer is a boolean [Ok]. *)
Theorem check_error_iff_not_found (cat : Catalog) (n : string) :
  (check cat n = Err PackageNotFound <-> forall p, p ∈ packages cat -> name p <> n) /\
  (forall e, check cat n = Err e -> e = PackageNotFound) /\
  ((exists p, p ∈ packages cat /\ name p = n) -> exists b, check cat n = Ok b).
Proof.
  assert (Hok : forall root, select_root cat n = Some root -> exists b, check cat n = Ok b).
  { intros root Hroot. unfold check, check_with, check_opt_with. rewrite Hroot.
    destruct (closure _ _ _ _ _) as [[sel|]|]; eauto. }
  split; [|split].
  - split.
    + intros Herr. apply select_root_None.
      destruct (select_root cat n) as [root|] eqn:Hr; [|done].
      destruct (Hok root eq_refl) as [b Hb]. congruence.
    + intros Hnone. apply select_root_None in Hnone.
      unfold check, check_with, check_opt_with. by rewrite Hnone.
  - by intros [].
  - intros Hex. destruct (select_root_Some cat n Hex) as [root Hroot]. eauto.
Qed.

Lemma check_error_iff_not_found_witness :
  exists b, check cycle_catalog "B" = Ok b.
Proof.
  apply (proj2 (proj2 (check_error_iff_not_found cycle_catalog "B"))).
  exists (pkg "B" v1 [unversioned "A"] []). split; [|reflexivity].
  apply elem_of_cons. right. apply elem_of_cons. by left.
Defined.

(** C3 (counterexample). A catalog holding an old build of "A" that
    requires the unprovided "missing-lib" and a newer build without that
    requirement: [check] evaluates the newer build and answers true. *)
Lemma missing_lib_old_build_satisfiable :
  let old_a := pkg "A" v1 [unversioned "missing-lib"] [] in
  let cat := mkCatalog "demo" [old_a; pkg "A" v2 [] []] in
  old_a ∈ packages cat /\ unversioned "missing-lib" ∈ requires old_a /\
  lookup_providers (build_index cat) "missing-lib" = [] /\
  check cat "A" = Ok true.
Proof.
  simpl. split; [apply elem_of_cons; by left|]. split; [apply elem_of_cons; by left|].
  split; reflexivity.
Qed.

(** C3 (amended). When the package that [check] evaluates for a name
    (the newest package of that name) requires a capability that no
    package provides, neither explicitly nor by self-provide, [check]
    returns [Ok false]. *)
Theorem missing_provider_unsatisfiable (cat : Catalog) (n : string) (root : Package)
    (r : CapabilityRef) :
  select_root cat n = Some root -> r ∈ requires root ->
  (forall p, p ∈ packages cat -> name p <> cname r /\ forall c, c ∈ provides p -> cname c <> cname r) ->
  check cat n = Ok false.
Proof.
  intros Hroot Hr Hnone.
  assert (Hsel : select_provider (lookup_providers (build_index cat)) r = None).
  { apply select_provider_None. intros e He. exfalso.
    rewrite build_index_lookup, catalog_providers_elem in He.
    destruct He as (p & c & Hp & Hc & Hn & _).
    destruct (Hnone p Hp) as [Hname Hprov].
    unfold effective_provides in Hc. apply elem_of_app in Hc as [Hc|Hc].
    - by apply (Hprov c).
    - apply list_elem_of_singleton in Hc as ->. by apply Hname. }
  unfold check, check_with, check_opt_with. rewrite Hroot.
  destruct (closure _ _ _ _ _) as [[sel|]|] eqn:Hc; [|done|done].
  exfalso. refine (closure_ok_has_providers _ _ _ _ _ _ _ Hc r Hr Hsel).
  intros x Hx. by apply not_elem_of_nil in Hx.
Qed.

Lemma missing_provider_unsatisfiable_witness :
  check (mkCatalog "demo" [pkg "A" v1 [unversioned "missing-lib"] []]) "A" = Ok false.
Proof.
  apply (missing_provider_unsatisfiable _ "A" (pkg "A" v1 [unversioned "missing-lib"] [])
    (unversioned "missing-lib")).
  - reflexivity.
  - apply elem_of_cons. by left.
  - intros p Hp. apply elem_of_cons in Hp as [->|Hp]; [|by apply not_elem_of_nil in Hp].
    split; [discriminate|]. intros c Hc. by apply not_elem_of_nil in Hc.
Defined.

(** C5. Every package of the catalog provides its own name at its own
    version: the entry is in the index bucket of its name, the
    requirement [name = version] is satisfied by it, and the solver finds
    a provider for that requirement, whatever the explicit provides. *)
Theorem self_provide_satisfies (cat : Catalog) (p : Package) :
  p ∈ packages cat ->
  (p, Some (version p)) ∈ lookup_providers (build_index cat) (name p) /\
  satisfies (constraint (mkCap (name p) (Some (EQ, version p)))) (Some (version p)) = true /\
  select_provider (lookup_providers (build_index cat)) (mkCap (name p) (Some (EQ, version p))) <> None.
Proof.
  intros Hp.
  assert (Hs : satisfies (Some (EQ, version p)) (Some (version p)) = true)
    by (simpl; by rewrite version_cmp_refl).
  split; [by apply self_provide_in_index|]. split; [done|].
  apply (provider_found _ _ (p, Some (version p))); [by apply self_provide_in_index|done].
Qed.

Lemma self_provide_satisfies_witness :
  select_provider (lookup_providers (build_index cycle_catalog))
    (mkCap "A" (Some (EQ, v1))) <> None.
Proof.
  apply (self_provide_satisfies cycle_catalog (pkg "A" v1 [unversioned "B"] [])).
  apply elem_of_cons. by left.
Defined.

(** C6. [check] terminates on every catalog (its work queue never
    exhausts the fuel bound), and on a catalog where "A" requires "B"
    and "B" requires "A", with no conflicts or obsoletes, it answers
    true, whatever the versions, kinds and explicit provides. *)
Theorem check_terminates_on_cycles :
  (forall (cat : Catalog) (n : string), check_opt cat n <> None) /\
  (forall (rn kA kB : string) (vA vB : Version) (provA provB : list CapabilityRef),
     check (mkCatalog rn [mkPackage "A" kA vA provA [mkCap "B" None] [] [];
                          mkPackage "B" kB vB provB [mkCap "A" None] [] []]) "A" = Ok true).
Proof.
  split; [apply closure_terminates|].
  intros rn kA kB vA vB provA provB.
  set (pA := mkPackage "A" kA vA provA [mkCap "B" None] [] []).
  set (pB := mkPackage "B" kB vB provB [mkCap "A" None] [] []).
  set (cat := mkCatalog rn [pA; pB]).
  assert (HA : pA ∈ packages cat) by (apply elem_of_cons; by left).
  assert (HB : pB ∈ packages cat) by (apply elem_of_cons; right; apply elem_of_cons; by left).
  apply check_true_without_conflicts.
  - exists pA. done.
  - intros p Hp. simpl in Hp.
    apply elem_of_cons in Hp as [->|Hp]; [done|].
    apply elem_of_cons in Hp as [->|Hp]; [done|by apply not_elem_of_nil in Hp].
  - intros p Hp r Hr. simpl in Hp.
    apply elem_of_cons in Hp as [->|Hp].
    + apply list_elem_of_singleton in Hr as ->.
      apply (provider_found _ _ (pB, Some vB)); [|done].
      exact (self_provide_in_index cat pB HB).
    + apply elem_of_cons in Hp as [->|Hp]; [|by apply not_elem_of_nil in Hp].
      apply list_elem_of_singleton in Hr as ->.
      apply (provider_found _ _ (pA, Some vA)); [|done].
      exact (self_provide_in_index cat pA HA).
Qed.

End SolverFacts.

(** * Properties of repository loading *)
Module RepoIOFacts.
Import RepoMeta RepoIO.

Lemma bind_Done_inv {E A B} (m : M E A) (k : A -> M E B) t b :
  bind m k = (t, Done b) ->
  exists t1 a t2, m = (t1, Done a) /\ k a = (t2, Done b) /\ t = t1 ++ t2.
Proof.
  destruct m as [t1 [a|e|p]]; simpl; [|discriminate..].
  destruct (k a) as [t2 o] eqn:Hk. intros [= <- ->]. eauto 6.
Qed.

Lemma bind_Done {E A B} t (a : A) (k : A -> M E B) :
  bind (t, Done a) k = (t ++ (k a).1, (k a).2).
Proof. simpl. by destruct (k a). Qed.

Lemma prefix_nil (s : string) : String.prefix "" s = true.
Proof. by destruct s. Qed.

Lemma prefix_app (p s : string) : String.prefix p (String.append p s) = true.
Proof.
  induction p as [|a p IH]; simpl; [apply prefix_nil|].
  destruct (ascii_dec a a); [done|congruence].
Qed.

Lemma str_contains_unfold (pat s : string) :
  str_contains pat s = String.prefix pat s ||
    match s with EmptyString => false | String _ s' => str_contains pat s' end.
Proof. by destruct s. Qed.

Lemma str_contains_app_r (pat pre s : string) :
  str_contains pat s = true -> str_contains pat (String.append pre s) = true.
Proof.
  intros H. induction pre as [|c pre IH]; [done|].
  simpl. rewrite IH. apply orb_true_r.
Qed.

Lemma str_contains_self (pat post : string) :
  str_contains pat (String.append pat post) = true.
Proof. rewrite str_contains_unfold, prefix_app. done. Qed.

Lemma str_contains_char_app (c : ascii) (a b : string) :
  str_contains (String c EmptyString) (String.append a b) =
    str_contains (String c EmptyString) a || str_contains (String c EmptyString) b.
Proof.
  induction a as [|c' a IH]; [done|].
  simpl. rewrite IH, !prefix_nil.
  destruct (ascii_dec c c'); simpl; [done|]. done.
Qed.

Lemma str_contains_char_free (c : ascii) (x s : string) :
  str_contains (String c EmptyString) s = false -> str_contains (String c x) s = false.
Proof.
  induction s as [|c' s IH]; [done|]. simpl.
  rewrite prefix_nil. destruct (ascii_dec c c'); simpl; [discriminate|].
  done.
Qed.

Lemma replace_from_absent (pat rep s : string) :
  str_contains pat s = false -> replace_from pat rep 0 s = s.
Proof.
  induction s as [|c s IH]; [done|]. simpl.
  intros [Hp Hs]%orb_false_iff. rewrite Hp. by rewrite IH.
Qed.

Lemma replace_from_skip (pat rep x s : string) :
  replace_from pat rep (String.length x) (String.append x s) = replace_from pat rep 0 s.
Proof. induction x as [|c x IH]; [done|]. simpl. apply IH. Qed.

Lemma replace_from_match (c : ascii) (p rep s : string) :
  replace_from (String c p) rep 0 (String.append (String c p) s) =
    String.append rep (replace_from (String c p) rep 0 s).
Proof.
  simpl. destruct (ascii_dec c c); [|congruence].
  rewrite prefix_app. rewrite Nat.sub_0_r. by rewrite replace_from_skip.
Qed.

Lemma replace_from_free (c : ascii) (p rep pre s : string) :
  str_contains (String c EmptyString) pre = false ->
  replace_from (String c p) rep 0 (String.append pre s) =
    String.append pre (replace_from (String c p) rep 0 s).
Proof.
  induction pre as [|c' pre IH]; [done|]. simpl.
  rewrite prefix_nil. destruct (ascii_dec c c'); simpl; [discriminate|].
  intros H. by rewrite IH.
Qed.

Lemma str_split_length (sep : ascii) (s : string) :
  length (str_split sep s) = S (count_char sep s).
Proof.
  induction s as [|c s IH]; [done|]. simpl.
  destruct (Ascii.eqb c sep); simpl; [by rewrite IH|].
  destruct (str_split sep s); simpl in *; congruence.
Qed.


Section LoadFacts.
Context {E : Type}.
Variables (http_get_text : string -> Core.result string E) (Bytes : Type)
  (http_get_bytes : string -> Core.result Bytes E) (gunzip : Bytes -> Core.result string E)
  (parse_repomd : string -> Core.result Repomd E)
  (parse_primary : string -> Core.result (list RawPackage) E) (de_error : DeError -> E)
  (load_ini : string -> Core.result (list (string * IniSection)) string)
  (arch_output rpm_release_output : Core.result string E).

Local Abbreviation from_baseurl :=
  (from_baseurl http_get_text Bytes http_get_bytes gunzip parse_repomd parse_primary de_error).
Local Abbreviation substitute_vars := (substitute_vars arch_output rpm_release_output).
Local Abbreviation load_sections :=
  (load_sections http_get_text Bytes http_get_bytes gunzip parse_repomd parse_primary de_error
     arch_output rpm_release_output).
Local Abbreviation from_file :=
  (from_file http_get_text Bytes http_get_bytes gunzip parse_repomd parse_primary de_error
     load_ini arch_output rpm_release_output).

Lemma from_baseurl_gets (url : string) (t : list event) (o : outcome E Repo) :
  from_baseurl url = (t, o) -> Forall (fun ev => exists u, ev = HttpGet u) t.
Proof.
  unfold RepoIO.from_baseurl, effect, try.
  destruct (http_get_text _) as [x|e]; simpl; [|intros [= <- _]; repeat constructor; eauto].
  destruct (parse_repomd x) as [rmd|e]; simpl; [|intros [= <- _]; repeat constructor; eauto].
  destruct (http_get_bytes _) as [b|e]; simpl; [|intros [= <- _]; repeat constructor; eauto].
  destruct (gunzip b) as [px|e]; simpl; [|intros [= <- _]; repeat constructor; eauto].
  destruct (parse_primary px) as [raws|e]; simpl; [|intros [= <- _]; repeat constructor; eauto].
  destruct (repo_of_primary raws); simpl; intros [= <- _]; repeat constructor; eauto.
Qed.

Lemma substitute_vars_no_dollar (url : string) :
  str_contains "$" url = false -> substitute_vars url = ([], Done url).
Proof.
  intros H. unfold RepoIO.substitute_vars.
  do 3 (rewrite str_contains_char_free by exact H; simpl). reflexivity.
Qed.

Lemma scan_section_trace (kvs : IniSection) (n b : string) :
  (scan_section kvs n b : M E (string * string)).1 = [].
Proof.
  revert n b. induction kvs as [|[k v] kvs IH]; intros n b; [done|]. simpl.
  repeat case_decide; try destruct v as [v|]; simpl; try done;
    match goal with
    | |- context [scan_section kvs ?x ?y] =>
        specialize (IH x y); destruct (scan_section kvs x y); simpl in *; by subst
    end.
Qed.

Lemma scan_section_Done (kvs : IniSection) (n b : string) (t : list event) (nb : string * string) :
  (scan_section kvs n b : M E (string * string)) = (t, Done nb) ->
  nb = (last_value "name" kvs n, last_value "baseurl" kvs b).
Proof.
  revert n b t. induction kvs as [|[k v] kvs IH]; intros n b t; simpl.
  - by intros [= _ <-].
  - case_decide as Hn.
    + destruct v as [v|]; simpl; [|discriminate].
      destruct (scan_section kvs v b) as [t' o] eqn:Hs. intros [= _ ->].
      rewrite (IH v b t' Hs). rewrite decide_False by (rewrite Hn; discriminate). done.
    + case_decide as Hb.
      * destruct v as [v|]; simpl; [|discriminate].
        destruct (scan_section kvs n v) as [t' o] eqn:Hs. intros [= _ ->].
        by rewrite (IH n v t' Hs).
      * apply IH.
Qed.

Lemma scan_section_None (kvs : IniSection) (key : string) (n b : string) :
  (key, None) ∈ kvs -> trim key = "name" \/ trim key = "baseurl" ->
  (scan_section kvs n b : M E (string * string)) = ([], Panic UnwrapNone).
Proof.
  revert n b. induction kvs as [|[k v] kvs IH]; intros n b Hin Hkey.
  - by apply not_elem_of_nil in Hin.
  - apply elem_of_cons in Hin as [[= <- <-]|Hin]; simpl.
    + destruct Hkey as [Hkey|Hkey].
      * by rewrite decide_True.
      * rewrite decide_False by (rewrite Hkey; discriminate). by rewrite decide_True.
    + case_decide; [destruct v; simpl; [|done]|].
      * by rewrite IH.
      * case_decide; [destruct v; simpl; [|done]|]; by rewrite IH.
Qed.

Lemma load_sections_names (sections : list (string * IniSection)) (acc repos : list Repo) (t : list event) :
  load_sections sections acc = (t, Done repos) ->
  map repo_name repos = map repo_name acc ++ map (fun sec => last_value "name" sec.2 "") sections.
Proof.
  revert acc t. induction sections as [|[s kvs] sections IH]; intros acc t; simpl.
  - intros [= _ <-]. by rewrite app_nil_r.
  - intros (t1 & nb & t' & Hs & Hk & _)%bind_Done_inv.
    apply bind_Done_inv in Hk as (t2 & url & t'' & _ & Hk & _).
    apply bind_Done_inv in Hk as (t3 & repo & t4 & _ & Hk & _).
    rewrite (IH _ _ Hk), (scan_section_Done _ _ _ _ _ Hs), map_app. simpl.
    by rewrite <- app_assoc.
Qed.

Lemma load_sections_gets (sections : list (string * IniSection)) (acc : list Repo)
    (t : list event) (o : outcome E (list Repo)) :
  Forall (fun sec => str_contains "$" (last_value "baseurl" sec.2 "") = false) sections ->
  load_sections sections acc = (t, o) -> Forall (fun ev => exists u, ev = HttpGet u) t.
Proof.
  revert acc t o. induction sections as [|[s kvs] sections IH]; intros acc t o Hs; simpl.
  - by intros [= <- _].
  - apply Forall_cons in Hs as [Hd Hs]. simpl in Hd.
    pose proof (scan_section_trace kvs "" "") as Ht1.
    destruct (scan_section kvs "" "") as [t1 [nb|e|p]] eqn:Hscan; simpl in Ht1; subst t1; simpl;
      [|by intros [= <- _]..].
    rewrite (scan_section_Done _ _ _ _ _ Hscan), substitute_vars_no_dollar by exact Hd. simpl.
    destruct (from_baseurl _) as [t3 o3] eqn:Hfb.
    pose proof (from_baseurl_gets _ _ _ Hfb) as Hg.
    destruct o3 as [repo|e|p]; simpl.
    + destruct (load_sections sections _) as [t4 o4] eqn:Hl. intros [= <- _].
      apply Forall_app. split; [done|]. exact (IH _ _ _ Hs Hl).
    + by intros [= <- _].
    + by intros [= <- _].
Qed.

(** [Repo::from_baseurl] succeeds only after fetching and parsing
    repomd.xml, downloading the primary file named there, decompressing
    and deserialising it; it then has made exactly these two requests,
    in this order, and returns a repository with an empty name. *)
Theorem from_baseurl_success (repo_url : string) (t : list event) (repo : Repo) :
  from_baseurl repo_url = (t, Done repo) ->
  exists repomd_xml repomd bytes primary_xml raws,
    http_get_text (repomd_url repo_url) = Core.Ok repomd_xml /\
    parse_repomd repomd_xml = Core.Ok repomd /\
    http_get_bytes (primary_location repo_url (datas repomd)) = Core.Ok bytes /\
    gunzip bytes = Core.Ok primary_xml /\ parse_primary primary_xml = Core.Ok raws /\
    repo_of_primary raws = Core.Ok repo /\
    t = [HttpGet (repomd_url repo_url); HttpGet (primary_location repo_url (datas repomd))] /\
    repo_name repo = "".
Proof.
  intros H. unfold RepoIO.from_baseurl in H.
  apply bind_Done_inv in H as (t1 & xml & t' & H1 & H & ->).
  unfold effect in H1. destruct (http_get_text _) eqn:Hg; [|discriminate]. injection H1 as <- ->.
  apply bind_Done_inv in H as (t2 & rmd & t'' & H2 & H & ->).
  unfold try in H2. destruct (parse_repomd xml) eqn:Hp; [|discriminate]. injection H2 as <- ->.
  cbv zeta in H.
  apply bind_Done_inv in H as (t3 & b & t4 & H3 & H & ->).
  unfold effect in H3. destruct (http_get_bytes _) eqn:Hb; [|discriminate]. injection H3 as <- ->.
  apply bind_Done_inv in H as (t5 & px & t6 & H5 & H & ->).
  unfold try in H5. destruct (gunzip b) eqn:Hz; [|discriminate]. injection H5 as <- ->.
  apply bind_Done_inv in H as (t7 & raws & t8 & H7 & H & ->).
  unfold try in H7. destruct (parse_primary px) eqn:Hpp; [|discriminate]. injection H7 as <- ->.
  unfold try in H. destruct (repo_of_primary raws) as [r|] eqn:Hr; [|discriminate].
  injection H as <- <-.
  exists xml, rmd, b, px, raws. do 7 (split; [done|]).
  by apply RepoMetaFacts.repo_of_primary_Ok in Hr as (_ & _ & ?).
Qed.

(** When repomd.xml cannot be fetched or parsed, [Repo::from_baseurl]
    returns that error after its first request: the primary file is
    never requested. *)
Theorem from_baseurl_needs_repomd (repo_url : string) :
  (forall e, http_get_text (repomd_url repo_url) = Core.Err e ->
     from_baseurl repo_url = ([HttpGet (repomd_url repo_url)], Fail e)) /\
  (forall repomd_xml e, http_get_text (repomd_url repo_url) = Core.Ok repomd_xml ->
     parse_repomd repomd_xml = Core.Err e ->
     from_baseurl repo_url = ([HttpGet (repomd_url repo_url)], Fail e)).
Proof.
  split.
  - intros e He. unfold RepoIO.from_baseurl, effect. by rewrite He.
  - intros xml e He Hp. unfold RepoIO.from_baseurl, effect. rewrite He. simpl.
    unfold try. by rewrite Hp.
Qed.

(** A base URL without any ['$'] is used as it is, and no external
    command is run for it. *)
Theorem substitute_vars_plain (url : string) :
  str_contains "$" url = false -> substitute_vars url = ([], Done url).
Proof. apply substitute_vars_no_dollar. Qed.

(** A base URL with one [$basearch] placeholder, and no other ['$'],
    runs [arch] once and has the placeholder replaced by its output,
    mapped to "i386" when the output is exactly "i686". *)
Theorem substitute_basearch (pre post out : string) :
  str_contains "$" pre = false -> str_contains "$" post = false ->
  str_contains "$" out = false -> arch_output = Core.Ok out ->
  substitute_vars (String.append pre (String.append "$basearch" post)) =
    ([RunCommand "arch" []],
     Done (String.append pre
       (String.append (if decide (out = "i686") then "i386" else out) post))).
Proof.
  intros Hpre Hpost Hout Harch.
  assert (Hrep : forall ba, str_replace (String.append pre (String.append "$basearch" post)) "$basearch" ba =
                   String.append pre (String.append ba post)).
  { intros ba. unfold str_replace.
    rewrite replace_from_free by exact Hpre. rewrite replace_from_match.
    rewrite replace_from_absent; [done|]. by apply str_contains_char_free. }
  unfold RepoIO.substitute_vars.
  rewrite (str_contains_app_r _ pre _ (str_contains_self "$basearch" post)).
  unfold effect at 1. rewrite Harch. simpl. rewrite Hrep.
  set (ba := if decide (out = "i686") then "i386" else out).
  assert (Hurl : str_contains "$" (String.append pre (String.append ba post)) = false).
  { assert (Hba : str_contains "$" ba = false) by (subst ba; case_decide; [reflexivity|exact Hout]).
    by rewrite !str_contains_char_app, Hpre, Hba, Hpost. }
  rewrite str_contains_char_free by exact Hurl. simpl.
  rewrite str_contains_char_free by exact Hurl. reflexivity.
Qed.

(** For a base URL with [$releasever] and neither [$basearch] nor
    [$arch], [from_file] runs [rpm -q openEuler-release] once; it
    panics on [release[2]] when the output has fewer than two ['-'],
    and otherwise replaces the placeholder with its third ['-']-separated
    field. *)
Theorem substitute_releasever (url release : string) :
  str_contains "$basearch" url = false -> str_contains "$arch" url = false ->
  str_contains "$releasever" url = true -> rpm_release_output = Core.Ok release ->
  substitute_vars url =
    ([RunCommand "rpm" ["-q"; "openEuler-release"]],
     if Nat.ltb (count_char "-" release) 2
     then Panic (IndexOutOfBounds 2 (S (count_char "-" release)))
     else Done (str_replace url "$releasever" (nth 2 (str_split "-" release) ""))).
Proof.
  intros Hb Ha Hr Hrpm. unfold RepoIO.substitute_vars.
  rewrite Hb. simpl. rewrite Ha. simpl. rewrite Hr. unfold effect. rewrite Hrpm. simpl.
  pose proof (str_split_length "-" release) as Hlen.
  replace (count_char "-" release) with (length (str_split "-" release) - 1) by lia.
  destruct (str_split "-" release) as [|p0 [|p1 [|p2 ps]]]; simpl in *; [lia|done..].
Qed.

(** On success, [Repo::from_file] returns one repository per section
    of the configuration map, in the map's order, each named after the
    value of its last [name] key (keys compared after trimming), or ""
    without one. *)
Theorem from_file_repo_names (path : string) (sections : list (string * IniSection))
    (t : list event) (repos : list Repo) :
  load_ini path = Core.Ok sections -> from_file path = (t, Done repos) ->
  map repo_name repos = map (fun sec => last_value "name" sec.2 "") sections.
Proof.
  intros Hl. unfold RepoIO.from_file. rewrite Hl. simpl.
  destruct (load_sections sections []) as [t' o] eqn:Hs. simpl. intros [= _ ->].
  exact (load_sections_names _ [] _ _ Hs).
Qed.

(** A [name] or [baseurl] key written without a value in the first
    section makes [Repo::from_file] panic on [unwrap] before any request
    or command. *)
Theorem from_file_missing_value_panics (path sec : string) (kvs : IniSection)
    (rest : list (string * IniSection)) (key : string) :
  load_ini path = Core.Ok ((sec, kvs) :: rest) -> (key, None) ∈ kvs ->
  trim key = "name" \/ trim key = "baseurl" ->
  from_file path = ([], Panic UnwrapNone).
Proof.
  intros Hl Hin Hk. unfold RepoIO.from_file. rewrite Hl. simpl.
  by rewrite (scan_section_None kvs key "" "" Hin Hk).
Qed.

(** When no section's base URL contains ['$'], [Repo::from_file] runs
    no external command: every effect it performs, whatever its outcome,
    is an HTTP GET. *)
Theorem from_file_commands_need_variables (path : string) (sections : list (string * IniSection))
    (t : list event) (o : outcome E (list Repo)) :
  load_ini path = Core.Ok sections ->
  Forall (fun sec => str_contains "$" (last_value "baseurl" sec.2 "") = false) sections ->
  from_file path = (t, o) -> Forall (fun ev => exists u, ev = HttpGet u) t.
Proof.
  intros Hl Hs. unfold RepoIO.from_file. rewrite Hl. simpl.
  destruct (load_sections sections []) as [t' o'] eqn:Hls. simpl. intros [= <- _].
  exact (load_sections_gets _ _ _ _ Hs Hls).
Qed.

End LoadFacts.

(** The primary file is fetched from the base URL followed by the href
    of the first data entry of type "primary"; later entries are
    ignored, and without such an entry the base URL itself is used. *)
Theorem primary_location_first (repo_url : string) :
  (forall ds1 d ds2, Forall (fun d' => data_type d' <> "primary") ds1 ->
     data_type d = "primary" ->
     primary_location repo_url (ds1 ++ d :: ds2) = String.append repo_url (location_href d)) /\
  (forall ds, Forall (fun d' => data_type d' <> "primary") ds -> primary_location repo_url ds = repo_url).
Proof.
  split.
  - intros ds1 d ds2 H1 Hd. induction ds1 as [|d1 ds1 IH]; simpl.
    + by rewrite decide_True.
    + apply Forall_cons in H1 as [Hd1 H1]. rewrite decide_False by done. by apply IH.
  - intros ds H. induction ds as [|d ds IH]; [done|]. simpl.
    apply Forall_cons in H as [Hd H]. rewrite decide_False by done. by apply IH.
Qed.


Definition demo_raw : RawPackage :=
  mkRawPackage [("type", "rpm"); ("name", "foo")] [("epoch", "0"); ("ver", "1.0"); ("rel", "1")].
Definition demo_get_text (url : string) : Core.result string string := Core.Ok "repomd.xml".
Definition demo_get_fail (url : string) : Core.result string string := Core.Err "Failed to connect".
Definition demo_get_bytes (url : string) : Core.result string string := Core.Ok "primary.xml.gz".
Definition demo_gunzip (b : string) : Core.result string string := Core.Ok "primary.xml".
Definition demo_parse_repomd (x : string) : Core.result Repomd string :=
  Core.Ok (mkRepomd [mkData "filelists" "repodata/filelists.xml.gz";
                     mkData "primary" "repodata/primary.xml.gz"]).
Definition demo_parse_repomd_fail (x : string) : Core.result Repomd string :=
  Core.Err "Failed to parse repomd.xml".
Definition demo_parse_primary (x : string) : Core.result (list RawPackage) string := Core.Ok [demo_raw].
Definition demo_de_error (e : DeError) : string := "Failed to parse primary.xml".
Definition demo_ini (sections : list (string * IniSection)) (path : string) :
  Core.result (list (string * IniSection)) string := Core.Ok sections.
Definition demo_sections : list (string * IniSection) :=
  [("openEuler", [("name", Some "openEuler"); (" baseurl", Some "http://repo/OS/")]);
   ("extra", [("baseurl", Some "http://extra/")])].
Definition demo_from_file (sections : list (string * IniSection)) : M string (list Repo) :=
  from_file demo_get_text string demo_get_bytes demo_gunzip demo_parse_repomd demo_parse_primary
    demo_de_error (demo_ini sections) (Core.Ok "x86_64") (Core.Ok "openEuler-release-22.03LTS-52") "openEuler.repo".

Lemma from_baseurl_success_witness :
  exists t repo,
    from_baseurl demo_get_text string demo_get_bytes demo_gunzip demo_parse_repomd
      demo_parse_primary demo_de_error "http://repo/" = (t, Done repo) /\
    t = [HttpGet "http://repo/repodata/repomd.xml"; HttpGet "http://repo/repodata/primary.xml.gz"] /\
    repo_name repo = "".
Proof.
  eexists _, _. split; [reflexivity|].
  destruct (from_baseurl_success demo_get_text string demo_get_bytes demo_gunzip demo_parse_repomd
    demo_parse_primary demo_de_error "http://repo/" _ _ eq_refl)
    as (x & rmd & b & px & raws & Hx & Hrmd & _ & _ & _ & _ & Ht & Hn).
  split; [|exact Hn]. rewrite Ht. unfold demo_get_text in Hx. injection Hx as <-.
  unfold demo_parse_repomd in Hrmd. injection Hrmd as <-. reflexivity.
Defined.

Lemma from_baseurl_needs_repomd_witness :
  from_baseurl demo_get_fail string demo_get_bytes demo_gunzip demo_parse_repomd
    demo_parse_primary demo_de_error "http://repo/" =
    ([HttpGet "http://repo/repodata/repomd.xml"], Fail "Failed to connect") /\
  from_baseurl demo_get_text string demo_get_bytes demo_gunzip demo_parse_repomd_fail
    demo_parse_primary demo_de_error "http://repo/" =
    ([HttpGet "http://repo/repodata/repomd.xml"], Fail "Failed to parse repomd.xml").
Proof.
  split.
  - apply (proj1 (from_baseurl_needs_repomd demo_get_fail string demo_get_bytes demo_gunzip
      demo_parse_repomd demo_parse_primary demo_de_error "http://repo/")). reflexivity.
  - apply (proj2 (from_baseurl_needs_repomd demo_get_text string demo_get_bytes demo_gunzip
      demo_parse_repomd_fail demo_parse_primary demo_de_error "http://repo/") "repomd.xml");
      reflexivity.
Defined.

Lemma substitute_vars_plain_witness :
  substitute_vars (E := string) (Core.Err "arch") (Core.Err "rpm") "http://repo/OS/" =
    ([], Done "http://repo/OS/").
Proof. apply substitute_vars_plain. reflexivity. Defined.

Lemma substitute_basearch_witness :
  substitute_vars (E := string) (Core.Ok "i686") (Core.Err "rpm") "http://repo/$basearch/os/" =
    ([RunCommand "arch" []], Done "http://repo/i386/os/") /\
  substitute_vars (E := string) (Core.Ok "x86_64") (Core.Err "rpm") "http://repo/$basearch/os/" =
    ([RunCommand "arch" []], Done "http://repo/x86_64/os/").
Proof.
  split.
  - exact (substitute_basearch (Core.Ok "i686") (Core.Err "rpm") "http://repo/" "/os/" "i686"
      eq_refl eq_refl eq_refl eq_refl).
  - exact (substitute_basearch (Core.Ok "x86_64") (Core.Err "rpm") "http://repo/" "/os/" "x86_64"
      eq_refl eq_refl eq_refl eq_refl).
Defined.

Lemma substitute_releasever_witness :
  substitute_vars (E := string) (Core.Err "arch") (Core.Ok "openEuler-release-22.03LTS-52.oe2203")
    "http://repo/openEuler-$releasever/OS/" =
    ([RunCommand "rpm" ["-q"; "openEuler-release"]], Done "http://repo/openEuler-22.03LTS/OS/") /\
  substitute_vars (E := string) (Core.Err "arch") (Core.Ok "package openEuler-release is not installed")
    "http://repo/openEuler-$releasever/OS/" =
    ([RunCommand "rpm" ["-q"; "openEuler-release"]], Panic (IndexOutOfBounds 2 2)).
Proof.
  split.
  - exact (substitute_releasever (Core.Err "arch") (Core.Ok "openEuler-release-22.03LTS-52.oe2203")
      "http://repo/openEuler-$releasever/OS/" "openEuler-release-22.03LTS-52.oe2203"
      eq_refl eq_refl eq_refl eq_refl).
  - exact (substitute_releasever (Core.Err "arch") (Core.Ok "package openEuler-release is not installed")
      "http://repo/openEuler-$releasever/OS/" "package openEuler-release is not installed"
      eq_refl eq_refl eq_refl eq_refl).
Defined.

Lemma from_file_repo_names_witness :
  exists t repos, demo_from_file demo_sections = (t, Done repos) /\
    map repo_name repos = ["openEuler"; ""].
Proof.
  eexists _, _. split; [reflexivity|].
  exact (from_file_repo_names demo_get_text string demo_get_bytes demo_gunzip demo_parse_repomd
    demo_parse_primary demo_de_error (demo_ini demo_sections) (Core.Ok "x86_64")
    (Core.Ok "openEuler-release-22.03LTS-52") "openEuler.repo" demo_sections _ _ eq_refl eq_refl).
Defined.

Lemma from_file_missing_value_panics_witness :
  demo_from_file [("openEuler", [("name", Some "openEuler"); ("baseurl", None)])] =
    ([], Panic UnwrapNone).
Proof.
  apply (from_file_missing_value_panics demo_get_text string demo_get_bytes demo_gunzip
    demo_parse_repomd demo_parse_primary demo_de_error
    (demo_ini [("openEuler", [("name", Some "openEuler"); ("baseurl", None)])])
    (Core.Ok "x86_64") (Core.Ok "openEuler-release-22.03LTS-52") "openEuler.repo" "openEuler"
    [("name", Some "openEuler"); ("baseurl", None)] [] "baseurl").
  - reflexivity.
  - apply elem_of_cons. right. apply elem_of_cons. left. reflexivity.
  - right. reflexivity.
Defined.

Lemma from_file_commands_need_variables_witness :
  Forall (fun ev => exists u, ev = HttpGet u) (demo_from_file demo_sections).1.
Proof.
  apply (from_file_commands_need_variables demo_get_text string demo_get_bytes demo_gunzip
    demo_parse_repomd demo_parse_primary demo_de_error (demo_ini demo_sections)
    (Core.Ok "x86_64") (Core.Ok "openEuler-release-22.03LTS-52") "openEuler.repo" demo_sections
    _ (demo_from_file demo_sections).2).
  - reflexivity.
  - repeat constructor.
  - reflexivity.
Defined.

Lemma primary_location_first_witness :
  primary_location "http://repo/"
    [mkData "filelists" "f.xml.gz"; mkData "primary" "p1.xml.gz"; mkData "primary" "p2.xml.gz"] =
    "http://repo/p1.xml.gz" /\
  primary_location "http://repo/" [mkData "filelists" "f.xml.gz"] = "http://repo/".
Proof.
  split.
  - apply (proj1 (primary_location_first "http://repo/") [mkData "filelists" "f.xml.gz"]
      (mkData "primary" "p1.xml.gz") [mkData "primary" "p2.xml.gz"]).
    + constructor; [discriminate|constructor].
    + reflexivity.
  - apply (proj2 (primary_location_first "http://repo/")).
    constructor; [discriminate|constructor].
Defined.

End RepoIOFacts.

(** * Further properties of the command-line entry point *)
Module CliExtraFacts.
Import Cli.

Lemma append_cancel_l (p a b : string) : String.append p a = String.append p b -> a = b.
Proof. induction p as [|c p IH]; simpl; [done|]. intros [= H]. by apply IH. Qed.

Lemma append_length (a b : string) :
  String.length (String.append a b) = String.length a + String.length b.
Proof. induction a as [|c a IH]; simpl; [done|]. by rewrite IH. Qed.

Lemma append_cancel_r (a b s : string) : String.append a s = String.append b s -> a = b.
Proof.
  revert b. induction a as [|c a IH]; intros [|c' b] H; simpl in *.
  - done.
  - apply (f_equal String.length) in H. rewrite !append_length in H. simpl in H. lia.
  - apply (f_equal String.length) in H. rewrite !append_length in H. simpl in H. lia.
  - injection H as -> H. by rewrite (IH b H).
Qed.

(** The line [main] prints for a package determines the package name
    and whether the check returned [Ok(true)], [Ok(false)] or an
    error. *)
Theorem report_line_injective {SE} (n1 n2 : string) (r1 r2 : Core.result bool SE) :
  report_line n1 r1 = report_line n2 r2 ->
  n1 = n2 /\ (r1 = Core.Ok true <-> r2 = Core.Ok true) /\
  (r1 = Core.Ok false <-> r2 = Core.Ok false).
Proof.
  destruct r1 as [[|]|e1], r2 as [[|]|e2]; cbv beta iota delta [report_line]; intros H;
    try (simpl in H; discriminate H);
    apply append_cancel_l, append_cancel_r in H; subst;
    (split; [done|]); split; split; (done || discriminate).
Qed.

(** With at least one package name, [main] checks no package when the
    configuration cannot be loaded (error), has no base URL (panic) or
    the repository cannot be fetched (error); each time it stops at that
    step. *)
Theorem main_stops_before_packages (Config Repo AnyError SolveErr : Type)
    (load_config : Core.result Config AnyError) (get_repo_baseurl : Config -> option string)
    (repo_from_baseurl : string -> Core.result Repo AnyError)
    (solve : Repo -> string -> Core.result bool SolveErr)
    (prog n : string) (names : list string) :
  let run := main Config Repo AnyError SolveErr load_config get_repo_baseurl repo_from_baseurl
               solve (prog :: n :: names) in
  (forall e, load_config = Core.Err e -> run = ([LoadConfig], Returned (Core.Err e))) /\
  (forall cfg, load_config = Core.Ok cfg -> get_repo_baseurl cfg = None ->
     run = ([LoadConfig], Panicked "Repo baseurl not found! Please check the config file!")) /\
  (forall cfg url e, load_config = Core.Ok cfg -> get_repo_baseurl cfg = Some url ->
     repo_from_baseurl url = Core.Err e ->
     run = ([LoadConfig; FetchRepo url], Returned (Core.Err e))).
Proof.
  intros run. subst run. unfold main. rewrite CliFacts.requested_packages_tail.
  split; [|split].
  - by intros e ->.
  - intros cfg -> Hu. by rewrite Hu.
  - intros cfg url e -> Hu Hr. by rewrite Hu, Hr.
Qed.

Definition demo_check (_ : unit) (_ : string) : Core.result bool unit := Core.Ok true.

Lemma report_line_injective_witness :
  "Sorry, package A's dependencies can not be satisfied in the repo. :(" =
    report_line "A" (Core.Ok false : Core.result bool unit) /\
  "A" = "A".
Proof.
  split; [reflexivity|].
  exact (proj1 (report_line_injective "A" "A" (Core.Ok false : Core.result bool unit)
    (Core.Ok false) eq_refl)).
Defined.

Lemma main_stops_before_packages_witness :
  main unit unit unit unit (Core.Err tt) (fun _ => Some "http://repo/") (fun _ => Core.Ok tt)
    demo_check ["rust-solv"; "A"] = ([LoadConfig], Returned (Core.Err tt)) /\
  main unit unit unit unit (Core.Ok tt) (fun _ => None) (fun _ => Core.Ok tt)
    demo_check ["rust-solv"; "A"] =
    ([LoadConfig], Panicked "Repo baseurl not found! Please check the config file!") /\
  main unit unit unit unit (Core.Ok tt) (fun _ => Some "http://repo/") (fun _ => Core.Err tt)
    demo_check ["rust-solv"; "A"] = ([LoadConfig; FetchRepo "http://repo/"], Returned (Core.Err tt)).
Proof.
  split; [|split].
  - apply (proj1 (main_stops_before_packages unit unit unit unit (Core.Err tt)
      (fun _ => Some "http://repo/") (fun _ => Core.Ok tt) demo_check "rust-solv" "A" [])).
    reflexivity.
  - apply (proj1 (proj2 (main_stops_before_packages unit unit unit unit (Core.Ok tt)
      (fun _ => None) (fun _ => Core.Ok tt) demo_check "rust-solv" "A" [])) tt); reflexivity.
  - apply (proj2 (proj2 (main_stops_before_packages unit unit unit unit (Core.Ok tt)
      (fun _ => Some "http://repo/") (fun _ => Core.Err tt) demo_check "rust-solv" "A" []))
      tt "http://repo/" tt); reflexivity.
Defined.

End CliExtraFacts.

(** * Further properties of the metadata deserialisation *)
Module RepoMetaExtraFacts.
Import RepoMeta.






End RepoMetaExtraFacts.
